(** * BoggleSolver: a shallow embedding of [BoggleSolver.py] and its properties

    The Python module solves 4x4 Boggle boards: it builds a table of the
    moves available at each board index, filters the dictionary down to the
    words spellable with the letters of the board, and runs a recursive
    search from every cell.

    Python values are modelled as follows.
    - [str] is [string]; indexing is [str_index], with Python's negative
      indices.
    - [list] is [list]; [set] is [gset]; [dict] is [gmap].
    - a computation that can raise is a value of [res]: [Ret] for normal
      completion, [Raise] for an exception.  The recursion of [_find_words]
      is driven by a fuel counter, [OutOfFuel] is the result of a run whose
      counter ran out.
    - the order in which Python iterates over a [set] is not specified; the
      two places that iterate over one take the order as a parameter. *)

From stdpp Require Import gmap strings list sorting.
From Stdlib Require Import ZArith Ascii Lia.

Local Open Scope Z_scope.
#[local] Set Warnings "-clear-no-such-hyp".

(** ** Exceptions and results *)

Inductive exn : Type :=
  | KeyError
  | IndexError
  | AssertionError
  | IOError (msg : string).

Inductive res (A : Type) : Type :=
  | Ret (a : A)
  | Raise (e : exn)
  | OutOfFuel.
Arguments Ret {A} a.
Arguments Raise {A} e.
Arguments OutOfFuel {A}.

Definition res_bind {A B : Type} (f : A → res B) (m : res A) : res B :=
  match m with
  | Ret a => f a
  | Raise e => Raise e
  | OutOfFuel => OutOfFuel
  end.

Global Instance res_ret : MRet res := @Ret.
Global Instance res_mbind : MBind res := @res_bind.

(** [for x in l: acc = body acc x], stopping at the first exception. *)
Fixpoint for_each {A S : Type} (body : S → A → res S) (l : list A) (acc : S)
    : res S :=
  match l with
  | [] => Ret acc
  | x :: l' => acc' ← body acc x; for_each body l' acc'
  end.

(** [[x for x in l if p x]] where [p] can raise. *)
Fixpoint comprehension_if {A : Type} (p : A → res bool) (l : list A)
    : res (list A) :=
  match l with
  | [] => Ret []
  | x :: l' =>
      b ← p x;
      r ← comprehension_if p l';
      Ret (if b : bool then x :: r else r)
  end.

(** ** Python indexing *)

(** [l[i]] on a list: a negative [i] counts from the end, an index out of
    range raises [IndexError]. *)
Definition py_norm (len i : Z) : Z := if i <? 0 then i + len else i.

Definition list_index {A : Type} (l : list A) (i : Z) : res A :=
  let j := py_norm (Z.of_nat (length l)) i in
  if (0 <=? j) && (j <? Z.of_nat (length l)) then
    match l !! Z.to_nat j with
    | Some x => Ret x
    | None => Raise IndexError
    end
  else Raise IndexError.

(** [l[i] = x] on a list. *)
Definition list_setitem {A : Type} (l : list A) (i : Z) (x : A) : res (list A) :=
  let j := py_norm (Z.of_nat (length l)) i in
  if (0 <=? j) && (j <? Z.of_nat (length l)) then Ret (<[Z.to_nat j := x]> l)
  else Raise IndexError.

(** [s[i]] on a [str]. *)
Definition str_index (s : string) (i : Z) : res ascii :=
  let j := py_norm (Z.of_nat (String.length s)) i in
  if (0 <=? j) && (j <? Z.of_nat (String.length s)) then
    match String.get (Z.to_nat j) s with
    | Some c => Ret c
    | None => Raise IndexError
    end
  else Raise IndexError.

(** [d[k]] on a [dict]. *)
Definition dict_index `{Countable K} {V : Type} (d : gmap K V) (k : K) : res V :=
  match d !! k with
  | Some v => Ret v
  | None => Raise KeyError
  end.

(** ** The table of moves: [_get_possible_index_moves] *)

Definition possible_moves : list Z := [-5; -4; -3; -1; 1; 3; 4; 5].

(** The loop that keeps the moves landing on the board. *)
Definition moves_in_range (index : Z) : gset Z :=
  foldl (λ index_moves move,
           if (index + move >=? 0) && (index + move <=? 15)
           then index_moves ∪ {[move]} else index_moves)
        ∅ possible_moves.

(** The left and right column tests. *)
Definition moves_after_columns (index : Z) : gset Z :=
  let index_moves := moves_in_range index in
  if index `mod` 4 =? 0 then index_moves ∖ {[-5; -1; 3]}
  else if index `mod` 4 =? 3 then index_moves ∖ {[-3; 1; 5]}
  else index_moves.

(** The top and bottom row tests.  Python reads the chained comparison
    [index < 4 == 0] as [index < 4 and 4 == 0], and [index > 11 == 3] as
    [index > 11 and 11 == 3]. *)
Definition top_row_test (index : Z) : bool := (index <? 4) && (4 =? 0).
Definition bottom_row_test (index : Z) : bool := (index >? 11) && (11 =? 3).

Definition _get_possible_index_moves (index : Z) : gset Z :=
  let index_moves := moves_after_columns index in
  if top_row_test index then index_moves ∖ {[-5; -4; -3]}
  else if bottom_row_test index then index_moves ∖ {[3; 4; 5]}
  else index_moves.

(** [_build_possible_index_moves] assigns the sixteen entries of the class
    level dict, whatever it held before. *)
Definition _build_possible_index_moves (possible_index_moves : gmap Z (gset Z))
    : gmap Z (gset Z) :=
  foldl (λ d i, <[i := _get_possible_index_moves i]> d)
        possible_index_moves (seqZ 0 16).

(** King-move neighbours on the 4x4 grid, rows and columns of the row-major
    layout. *)
Definition row (pos : Z) : Z := pos `div` 4.
Definition col (pos : Z) : Z := pos `mod` 4.

Definition king_neighbor (pos n : Z) : Prop :=
  0 ≤ n ≤ 15 ∧ n ≠ pos ∧ Z.abs (row n - row pos) ≤ 1 ∧ Z.abs (col n - col pos) ≤ 1.

Global Instance king_neighbor_dec pos n : Decision (king_neighbor pos n).
Proof. unfold king_neighbor. apply _. Defined.

(** ** Strings *)

Definition str_chars (s : string) : list ascii := String.list_ascii_of_string s.

(** [c in s] for a one-character string [c]. *)
Fixpoint str_contains (c : ascii) (s : string) : bool :=
  match s with
  | EmptyString => false
  | String a s' => if decide (a = c) then true else str_contains c s'
  end.

Definition is_upper (c : ascii) : bool :=
  let n := N_of_ascii c in ((65 <=? n) && (n <=? 90))%N.
Definition is_lower (c : ascii) : bool :=
  let n := N_of_ascii c in ((97 <=? n) && (n <=? 122))%N.
Definition is_alpha (c : ascii) : bool := is_upper c || is_lower c.

Definition ascii_lower (c : ascii) : ascii :=
  if is_upper c then ascii_of_N (N_of_ascii c + 32) else c.

(** [s.lower()] *)
Fixpoint str_lower (s : string) : string :=
  match s with
  | EmptyString => EmptyString
  | String a s' => String (ascii_lower a) (str_lower s')
  end.

(** [s.isalpha()]: at least one character and only letters. *)
Definition str_isalpha (s : string) : bool :=
  match s with
  | EmptyString => false
  | _ => forallb is_alpha (str_chars s)
  end.

(** ["".join(l)] *)
Definition str_join (l : list string) : string := foldr String.app "" l.

(** [s.strip()]: whitespace removed at both ends. *)
Fixpoint str_lstrip (s : string) : string :=
  match s with
  | EmptyString => EmptyString
  | String a s' => if Ascii.is_space a then str_lstrip s' else s
  end.

Fixpoint str_rstrip (s : string) : string :=
  match s with
  | EmptyString => EmptyString
  | String a s' =>
      match str_rstrip s' with
      | EmptyString => if Ascii.is_space a then EmptyString else String a EmptyString
      | r => String a r
      end
  end.

Definition str_strip (s : string) : string := str_rstrip (str_lstrip s).

(** [len(s)] as a Python integer. *)
Definition len (s : string) : Z := Z.of_nat (String.length s).

(** ** [_load_board] *)

(** [text] is what [_load_board] starts from: the content of the file when
    [board_arg] names one, [board_arg] itself otherwise. *)
Definition _load_board (text : string) : res string :=
  let board := text in
  let board := str_lower board in
  let board := str_join (String.words board) in
  if (len board =? 16) && str_isalpha board then Ret board
  else Raise AssertionError.

(** What [_load_board] leaves in [self.board]. *)
Definition valid_board (board : string) : Prop :=
  String.length board = 16%nat ∧ Forall (λ c, is_lower c = true) (str_chars board).

(** ** [_load_dictionary] *)

Definition alphabet : string := "abcdefghijklmnopqrstuvwxyz".

(** The lines of the dictionary file, stripped, that have more than 2 and
    fewer than 18 characters. *)
Definition read_dict_words (lines : list string) : list string :=
  foldl (λ dict_words line,
           let word := str_strip line in
           if (len word >? 2) && (len word <? 18) then dict_words ++ [word]
           else dict_words)
        [] lines.

(** [l.remove(x)]: the first occurrence goes. *)
Fixpoint list_remove_first (x : ascii) (l : list ascii) : list ascii :=
  match l with
  | [] => []
  | y :: l' => if decide (y = x) then l' else y :: list_remove_first x l'
  end.

Definition missing_letters_of (board : string) : list ascii :=
  let missing_letters :=
    filter (λ letter, str_contains letter board = false) (str_chars alphabet) in
  if bool_decide ("q"%char ∉ missing_letters) && bool_decide ("u"%char ∈ missing_letters)
  then list_remove_first "u"%char missing_letters
  else missing_letters.

Definition present_letters_of (board : string) : list ascii :=
  filter (λ letter, letter ∉ missing_letters_of board) (str_chars alphabet).

(** The inner loop over the missing letters for one word, with its flag. *)
Definition scan_missing (missing_letters : list ascii) (word : string)
    (remove_words : gset string) : bool * gset string :=
  foldl (λ st letter,
           let '(has_missing_letters, remove_words) := st in
           if has_missing_letters : bool then st
           else if str_contains letter word then (true, remove_words ∪ {[word]})
           else st)
        (false, remove_words) missing_letters.

Definition remove_words_of (missing_letters : list ascii) (dict_words : list string)
    : gset string :=
  foldl (λ remove_words word, (scan_missing missing_letters word remove_words).2)
        ∅ dict_words.

Definition unsorted_valid_words (lines : list string) (board : string) : list string :=
  let dict_words := read_dict_words lines in
  let remove_words := remove_words_of (missing_letters_of board) dict_words in
  filter (λ word, word ∉ remove_words) dict_words.

(** [self.valid_words[first][second] = []] *)
Definition set_empty_bucket (first second : ascii)
    (valid_words : gmap ascii (gmap ascii (list string)))
    : res (gmap ascii (gmap ascii (list string))) :=
  bucket_row ← dict_index valid_words first;
  mret (<[first := <[second := []]> bucket_row]> valid_words).

(** The nested loops that create every bucket. *)
Definition empty_index (present_letters : list ascii)
    (valid_words : gmap ascii (gmap ascii (list string)))
    : res (gmap ascii (gmap ascii (list string))) :=
  for_each (λ valid_words first_word_letter,
              for_each (λ valid_words second_word_letter,
                          set_empty_bucket first_word_letter second_word_letter
                                           valid_words)
                       present_letters (<[first_word_letter := ∅]> valid_words))
           present_letters valid_words.

(** [self.valid_words[word[0]][word[1]].append(word)] *)
Definition append_word (valid_words : gmap ascii (gmap ascii (list string)))
    (word : string) : res (gmap ascii (gmap ascii (list string))) :=
  c0 ← str_index word 0;
  bucket_row ← dict_index valid_words c0;
  c1 ← str_index word 1;
  bucket ← dict_index bucket_row c1;
  mret (<[c0 := <[c1 := bucket ++ [word]]> bucket_row]> valid_words).

(** [lines] are the lines of the dictionary file; [self.valid_words] starts
    out empty. *)
Definition _load_dictionary (lines : list string) (board : string)
    : res (gmap ascii (gmap ascii (list string))) :=
  valid_words ← empty_index (present_letters_of board) ∅;
  for_each append_word (unsorted_valid_words lines board) valid_words.

(** [self.valid_words[a][b]] *)
Definition bucket_of (valid_words : gmap ascii (gmap ascii (list string)))
    (a b : ascii) : res (list string) :=
  bucket_row ← dict_index valid_words a;
  dict_index bucket_row b.

(** The words held by the index. *)
Definition indexed (valid_words : gmap ascii (gmap ascii (list string)))
    (word : string) : Prop :=
  ∃ a b bucket_row bucket,
    valid_words !! a = Some bucket_row ∧ bucket_row !! b = Some bucket ∧ word ∈ bucket.

(** ** The search: [_find_words] and [_solve_board] *)

Section search.
(** The order in which a [set] of moves is iterated. *)
Variable iter_moves : gset Z → list Z.
(** The order in which the [set] of found words is turned into a list. *)
Variable iter_words : gset string → list string.
(** The class attribute and the instance attributes the search reads. *)
Variable possible_index_moves : gmap Z (gset Z).
Variable board : string.
Variable valid_words : gmap ascii (gmap ascii (list string)).

(** One round of the loop that accumulates [cur_word]. *)
Definition spell_step (cur_word : string) (pos : Z) : res string :=
  c ← str_index board pos;
  let cur_word := cur_word +:+ String c "" in
  c' ← str_index board pos;
  mret (if decide (c' = "q"%char) then cur_word +:+ "u" else cur_word).

Definition build_cur_word (cur_path : list Z) : res string :=
  for_each spell_step cur_path "".

(** [self.valid_words[cur_word[0]][cur_word[1]]] *)
Definition word_bucket (cur_word : string) : res (list string) :=
  c0 ← str_index cur_word 0;
  bucket_row ← dict_index valid_words c0;
  c1 ← str_index cur_word 1;
  dict_index bucket_row c1.

(** The middle of [_find_words]: is the path the start of a word, and is
    it a word. *)
Definition score_path (cur_path : list Z) (found_words : gset string)
    : res (bool * gset string) :=
  if bool_decide (length cur_path = 1%nat) then mret (true, found_words)
  else
    cur_word ← build_cur_word cur_path;
    bucket ← word_bucket cur_word;
    let is_word_start := existsb (String.prefix cur_word) bucket in
    if len cur_word >? 2 then
      bucket' ← word_bucket cur_word;
      mret (is_word_start,
            if bool_decide (cur_word ∈ bucket') then found_words ∪ {[cur_word]}
            else found_words)
    else mret (is_word_start, found_words).

Fixpoint _find_words (fuel : nat) (index : Z) (used_letter_arg : list bool)
    (cur_path_arg : list Z) (found_words : gset string) : res (gset string) :=
  match fuel with
  | O => OutOfFuel
  | S fuel' =>
      used_letter ← list_setitem used_letter_arg index true;
      let cur_path := cur_path_arg ++ [index] in
      moves ← dict_index possible_index_moves index;
      available_moves ←
        comprehension_if
          (λ move, used ← list_index used_letter (index + move); mret (negb used))
          (iter_moves moves);
      '(is_word_start, found_words) ← score_path cur_path found_words;
      if is_word_start && bool_decide (available_moves ≠ []) then
        for_each (λ found_words move,
                    _find_words fuel' (index + move) used_letter cur_path found_words)
                 available_moves found_words
      else mret found_words
  end.

(** Sixteen cells: no call of [_find_words] is nested deeper. *)
Definition search_depth : nat := 16.

Definition search_all (found_words : gset string) : res (gset string) :=
  let used_letter := replicate 16 false in
  for_each (λ found_words i, _find_words search_depth i used_letter [] found_words)
           (seqZ 0 16) found_words.

(** [_solve_board] up to the list it writes. *)
Definition _solve_board (found_words : gset string) : res (list string) :=
  found_words ← search_all found_words;
  let out_words := merge_sort String.le (iter_words found_words) in
  mret out_words.
End search.

(** What [_solve_board] writes to the output file. *)
Definition newline : string := String "010"%char "".
Definition file_text (out_words : list string) : string :=
  foldl (λ text word, text +:+ (word +:+ newline)) "" out_words.

(** [BoggleBoard(dict_file, board_arg, out_file)]: [cache] is the class
    attribute [possible_index_moves] as the constructor finds it, [lines] the
    lines of the dictionary file and [text] the board text. *)
Definition BoggleBoard (iter_moves : gset Z → list Z)
    (iter_words : gset string → list string) (cache : gmap Z (gset Z))
    (lines : list string) (text : string) : res (list string) :=
  let possible_index_moves := _build_possible_index_moves cache in
  board ← _load_board text;
  valid_words ← _load_dictionary lines board;
  _solve_board iter_moves iter_words possible_index_moves board valid_words ∅.

(** ** The dictionary filter and the index, as they are specified *)

(** A letter counts as present when the board holds it, and 'u' also when
    the board holds 'q'. *)
Definition counts_as_present (board : string) (c : ascii) : Prop :=
  str_contains c board = true ∨ (c = "u"%char ∧ str_contains "q"%char board = true).

Global Instance counts_as_present_dec board c : Decision (counts_as_present board c).
Proof. unfold counts_as_present. apply _. Defined.

(** No letter of the alphabet that occurs in [word] is absent. *)
Definition no_absent_letter (board word : string) : Prop :=
  ∀ c, c ∈ str_chars alphabet → str_contains c word = true → counts_as_present board c.

Definition starts_with (a b : ascii) (word : string) : Prop :=
  str_chars word !! 0%nat = Some a ∧ str_chars word !! 1%nat = Some b.

Global Instance starts_with_dec a b word : Decision (starts_with a b word).
Proof. unfold starts_with. apply _. Defined.

(** [valid_words] has a bucket for every pair of present letters, holding
    the words of [words] that start with the pair, and no other bucket. *)
Definition index_for (present : list ascii) (words : list string)
    (valid_words : gmap ascii (gmap ascii (list string))) : Prop :=
  ∀ a b, bucket_of valid_words a b =
         if decide (a ∈ present ∧ b ∈ present)
         then Ret (filter (starts_with a b) words) else Raise KeyError.

Definition keyed (present : list ascii) (word : string) : Prop :=
  ∃ a b, starts_with a b word ∧ a ∈ present ∧ b ∈ present.

(** ** Paths and the words they spell *)

(** The characters a cell contributes to a word. *)
Definition cell_text (board : string) (pos : Z) : string :=
  match String.get (Z.to_nat pos) board with
  | Some c => if decide (c = "q"%char) then "qu" else String c ""
  | None => ""
  end.

Definition spelled (board : string) (path : list Z) : string :=
  str_join (cell_text board <$> path).

(** Adjacency as the table of moves has it. *)
Definition table_adjacent (a b : Z) : Prop := b - a ∈ _get_possible_index_moves a.

Fixpoint linked (adj : Z → Z → Prop) (path : list Z) : Prop :=
  match path with
  | a :: (b :: _) as rest => adj a b ∧ linked adj rest
  | _ => True
  end.

(** A simple path of adjacent cells. *)
Definition simple_path (adj : Z → Z → Prop) (path : list Z) : Prop :=
  path ≠ [] ∧ Forall (λ pos, 0 ≤ pos ≤ 15) path ∧ NoDup path ∧ linked adj path.

Definition traceable (adj : Z → Z → Prop) (board word : string) : Prop :=
  ∃ path, simple_path adj path ∧ spelled board path = word.

(** A dictionary of lowercase words: every line, stripped, has only the
    letters a to z. *)
Definition lowercase_word (word : string) : Prop :=
  Forall (λ c, is_lower c = true) (str_chars word).
Definition lowercase_dictionary (lines : list string) : Prop :=
  Forall (λ line, lowercase_word (str_strip line)) lines.

(** [used_letter] marks exactly the cells of [path]. *)
Definition marks (used_letter : list bool) (path : list Z) : Prop :=
  length used_letter = 16%nat
  ∧ ∀ pos, 0 ≤ pos ≤ 15 →
           used_letter !! Z.to_nat pos = Some (bool_decide (pos ∈ path)).

(** [word] is a filtered dictionary word spelled by a simple path that
    starts with [path]. *)
Definition reach (lines : list string) (board : string) (path : list Z)
    (word : string) : Prop :=
  word ∈ unsorted_valid_words lines board
  ∧ ∃ ext, simple_path table_adjacent (path ++ ext)
           ∧ spelled board (path ++ ext) = word.

(** The moves [_find_words] recurses into from the end [index] of the path
    [path ++ [index]]. *)
Definition open_moves (iter_moves : gset Z → list Z) (path : list Z) (index : Z)
    : list Z :=
  filter (λ move, index + move ∉ path ++ [index])
         (iter_moves (_get_possible_index_moves index)).

(** ** [check_input_args] and the command line *)

Definition py_assert (b : bool) : res unit :=
  if b then Ret () else Raise AssertionError.

(** [try: body except AssertionError: handler] *)
Definition except_AssertionError {A : Type} (body handler : res A) : res A :=
  match body with
  | Raise AssertionError => handler
  | r => r
  end.

Section files.
(** [os.path.isfile], [DATA_DIR] and [os.path.join]. *)
Variable isfile : string → bool.
Variable DATA_DIR : string.
Variable path_join : string → string → string.

Definition check_input_args (dict_arg board_arg : string) : res (string * string) :=
  dict_arg ←
    (if negb (isfile dict_arg) then
       except_AssertionError
         (let dict_arg := path_join DATA_DIR dict_arg in
          _ ← py_assert (isfile dict_arg); mret dict_arg)
         (Raise (IOError "Dictionary file not found."))
     else mret dict_arg);
  board_arg ←
    (if negb (isfile board_arg) then
       except_AssertionError
         (let board_arg := path_join DATA_DIR board_arg in
          _ ← py_assert (isfile board_arg); mret board_arg)
         (Raise (IOError "Board file not found."))
     else mret board_arg);
  mret (dict_arg, board_arg).

(** An argument is found when it is a file, or names one in [DATA_DIR]. *)
Definition found_arg (arg : string) : bool :=
  isfile arg || isfile (path_join DATA_DIR arg).
Definition resolved (arg : string) : string :=
  if isfile arg then arg else path_join DATA_DIR arg.

(** The script: [core] stands for the constructor [BoggleBoard], [argv]
    for [sys.argv]. *)
Inductive exit : Type :=
  | Usage
  | Solved (r : res (list string)).

Definition main (core : string → string → string → res (list string))
    (argv : list string) : exit :=
  match argv with
  | [_; dict_arg; board_arg; output_arg] =>
      Solved ('(dict_arg, board_arg) ← check_input_args dict_arg board_arg;
              core dict_arg board_arg output_arg)
  | _ => Usage
  end.
End files.

(** ** Further notions the properties are stated with *)

(** The board text as [_load_board] reads it: letters in lowercase,
    whitespace dropped. *)
Definition normal_form (text : string) : string :=
  String.string_of_list_ascii
    (filter (λ c, Ascii.is_space c = false) (ascii_lower <$> str_chars text)).

(** Every 'q' is followed by a 'u'. *)
Fixpoint q_then_u (l : list ascii) : Prop :=
  match l with
  | [] => True
  | c :: rest => (c = "q"%char → ∃ rest', rest = "u"%char :: rest') ∧ q_then_u rest
  end.

(** Iterating over a text file gives its lines, each with its newline; the
    last line may lack one. *)
Fixpoint file_lines (text : string) : list string :=
  match text with
  | EmptyString => []
  | String a text' =>
      if decide (a = "010"%char) then String a "" :: file_lines text'
      else match file_lines text' with
           | [] => [String a ""]
           | line :: rest => String a line :: rest
           end
  end.

(** The number of cells within one row, or one column, of a cell. *)
Definition near (k : Z) : Z := if decide (k = 0 ∨ k = 3) then 2 else 3.

(** A word passes the filter of [_load_dictionary]: it has 3 to 17
    characters, and every letter of the alphabet that occurs in it counts as
    present. *)
Definition passes_filter (board word : string) : Prop :=
  3 ≤ len word ≤ 17
  ∧ Forall (λ c, str_contains c word = true → counts_as_present board c)
           (str_chars alphabet).

Global Instance passes_filter_dec board word : Decision (passes_filter board word).
Proof. unfold passes_filter. apply _. Defined.

(** [_load_dictionary] from its first line on: the assert that [dict_file]
    is a file, the opening and reading of its lines, then the filter and the
    index.  [isfile] is [os.path.isfile]; [open_lines] opens the file and
    iterates over it, and can raise. *)
Definition load_dictionary_file (isfile : string → bool)
    (open_lines : string → res (list string)) (dict_file board : string)
    : res (gmap ascii (gmap ascii (list string))) :=
  _ ← py_assert (isfile dict_file);
  lines ← open_lines dict_file;
  _load_dictionary lines board.

(** * Properties *)

(** Unfolds the binds of [res]. *)
Ltac res_simpl := cbn [mbind mret res_mbind res_ret res_bind] in *.

Lemma res_bind_Ret {A B : Type} (m : res A) (f : A → res B) (b : B) :
  m ≫= f = Ret b ↔ ∃ a, m = Ret a ∧ f a = Ret b.
Proof. destruct m; res_simpl; naive_solver. Qed.

Lemma dict_index_Ret `{Countable K} {V : Type} (d : gmap K V) (k : K) (v : V) :
  dict_index d k = Ret v ↔ d !! k = Some v.
Proof. unfold dict_index. destruct (d !! k); naive_solver. Qed.

(** Splits a hypothesis that a sequence of binds returns. *)
Ltac res_inv :=
  repeat match goal with
  | H : _ ≫= _ = Ret _ |- _ =>
      let x := fresh "x" in let Hx := fresh "Hx" in
      apply res_bind_Ret in H as (x & Hx & H)
  | H : mret _ = Ret _ |- _ => injection H as H
  | H : dict_index _ _ = Ret _ |- _ => apply dict_index_Ret in H
  end.

(** ** The table of moves *)

Lemma moves_in_range_elem index move :
  move ∈ moves_in_range index → move ∈ possible_moves ∧ 0 ≤ index + move ≤ 15.
Proof.
  unfold moves_in_range.
  assert (∀ l (acc : gset Z),
    move ∈ foldl (λ index_moves move,
                    if (index + move >=? 0) && (index + move <=? 15)
                    then index_moves ∪ {[move]} else index_moves) acc l →
    move ∈ acc ∨ (move ∈ l ∧ 0 ≤ index + move ≤ 15)) as Hfold.
  { induction l as [|m l IH]; intros acc Hin; simpl in *; [by left|].
    destruct (IH _ Hin) as [Hacc|[Hl Hr]].
    - destruct ((index + m >=? 0) && (index + m <=? 15)) eqn:Hb.
      + apply elem_of_union in Hacc as [?|Hm%elem_of_singleton]; [by left|].
        subst m. right. split; [left|lia].
      + by left.
    - right. split; [by right|done]. }
  intros Hin. destruct (Hfold _ _ Hin) as [Hemp|?]; [|done].
  by apply not_elem_of_empty in Hemp.
Qed.

Lemma moves_after_columns_subseteq index :
  moves_after_columns index ⊆ moves_in_range index.
Proof.
  unfold moves_after_columns.
  destruct (index `mod` 4 =? 0); [set_solver|].
  destruct (index `mod` 4 =? 3); set_solver.
Qed.

Lemma row_tests_false index :
  top_row_test index = false ∧ bottom_row_test index = false.
Proof.
  unfold top_row_test, bottom_row_test. split; apply andb_false_r.
Qed.

Lemma get_moves_columns index :
  _get_possible_index_moves index = moves_after_columns index.
Proof.
  unfold _get_possible_index_moves.
  destruct (row_tests_false index) as [-> ->]. done.
Qed.

Lemma get_moves_elem index move :
  move ∈ _get_possible_index_moves index →
  move ∈ possible_moves ∧ 0 ≤ index + move ≤ 15.
Proof.
  rewrite get_moves_columns. intros Hin.
  by apply moves_in_range_elem, moves_after_columns_subseteq.
Qed.

Lemma table_adjacent_range a b : table_adjacent a b → 0 ≤ b ≤ 15.
Proof.
  unfold table_adjacent. intros [_ ?]%get_moves_elem. lia.
Qed.

(** The table against the geometry, cell by cell. *)
Lemma table_king_check :
  Forall (λ pos, Forall (λ n, table_adjacent pos n ↔ king_neighbor pos n)
                        (seqZ 0 16))
         (seqZ 0 16).
Proof. unfold table_adjacent. compute_done. Qed.

Lemma table_adjacent_king pos n :
  0 ≤ pos ≤ 15 → table_adjacent pos n ↔ king_neighbor pos n.
Proof.
  intros Hpos.
  assert (0 ≤ n ≤ 15 → table_adjacent pos n ↔ king_neighbor pos n) as Hin.
  { intros Hn. pose proof table_king_check as Hall.
    rewrite Forall_seqZ in Hall. specialize (Hall pos ltac:(lia)).
    rewrite Forall_seqZ in Hall. apply Hall. lia. }
  split.
  - intros Hadj. apply Hin; [|done]. by eapply table_adjacent_range.
  - intros Hk. apply Hin; [|done]. by destruct Hk.
Qed.

(** C3: for a position in [0,15], the cells reached by its moves are
    exactly its king-move neighbours on the 4x4 grid, and the moves are
    those left by the bounds check and the two column tests: the top and
    bottom row tests are false at every index. *)
Theorem adjacency_table_correct (pos : Z) :
  0 ≤ pos ≤ 15 →
  (∀ n, (∃ move, move ∈ _get_possible_index_moves pos ∧ n = pos + move)
        ↔ king_neighbor pos n)
  ∧ _get_possible_index_moves pos = moves_after_columns pos
  ∧ (∀ index, top_row_test index = false ∧ bottom_row_test index = false).
Proof.
  intros Hpos. split; [|split].
  - intros n. rewrite <-table_adjacent_king by done. unfold table_adjacent.
    split.
    + intros (move & Hin & ->). by replace (pos + move - pos) with move by lia.
    + intros Hin. exists (n - pos). split; [done|lia].
  - apply get_moves_columns.
  - apply row_tests_false.
Qed.

Lemma adjacency_table_correct_witness :
  (∀ n, (∃ move, move ∈ _get_possible_index_moves 3 ∧ n = 3 + move)
        ↔ king_neighbor 3 n)
  ∧ _get_possible_index_moves 3 = moves_after_columns 3
  ∧ (∀ index, top_row_test index = false ∧ bottom_row_test index = false).
Proof. apply (adjacency_table_correct 3). lia. Defined.

(** ** Strings as lists of characters *)

Lemma str_chars_inj s1 s2 : str_chars s1 = str_chars s2 → s1 = s2.
Proof.
  unfold str_chars. intros Heq.
  rewrite <-(String.string_of_list_ascii_of_string s1),
          <-(String.string_of_list_ascii_of_string s2).
  by rewrite Heq.
Qed.

Lemma str_chars_app s1 s2 : str_chars (s1 +:+ s2) = str_chars s1 ++ str_chars s2.
Proof. induction s1 as [|a s1 IH]; simpl; [done|]. by rewrite <-IH. Qed.

Lemma str_length_chars s : String.length s = length (str_chars s).
Proof. induction s as [|a s IH]; simpl; [done|]. by rewrite IH. Qed.

Lemma str_get_chars n s : String.get n s = str_chars s !! n.
Proof.
  revert n. induction s as [|a s IH]; intros [|n]; simpl; done.
Qed.

Lemma str_contains_chars c s : str_contains c s = true ↔ c ∈ str_chars s.
Proof.
  induction s as [|a s IH]; simpl.
  - split; [done|]. by intros ?%elem_of_nil.
  - rewrite elem_of_cons. destruct (decide (a = c)) as [->|Hne].
    + naive_solver.
    + rewrite IH. naive_solver.
Qed.

Lemma str_contains_false c s : str_contains c s = false ↔ c ∉ str_chars s.
Proof.
  rewrite <-str_contains_chars. destruct (str_contains c s); naive_solver.
Qed.

Lemma str_prefix_chars s1 s2 :
  String.prefix s1 s2 = true ↔ str_chars s1 `prefix_of` str_chars s2.
Proof.
  revert s1. induction s2 as [|b s2 IH]; intros [|a s1]; simpl.
  - split; [|done]. intros _. apply prefix_nil.
  - split; [done|]. intros Hp. by apply prefix_nil_inv in Hp.
  - split; [|done]. intros _. apply prefix_nil.
  - destruct (ascii_dec a b) as [->|Hne].
    + rewrite IH. split; [apply prefix_cons|apply prefix_cons_inv_2].
    + split; [done|]. intros Hp. by apply prefix_cons_inv_1 in Hp.
Qed.

Lemma len_chars s : len s = Z.of_nat (length (str_chars s)).
Proof. unfold len. by rewrite str_length_chars. Qed.

Lemma str_index_chars s i :
  0 ≤ i < len s →
  ∃ c, str_index s i = Ret c ∧ str_chars s !! Z.to_nat i = Some c.
Proof.
  unfold str_index, py_norm, len. intros Hi.
  destruct (i <? 0) eqn:Hneg; [lia|].
  destruct ((0 <=? i) && (i <? Z.of_nat (String.length s))) eqn:Hb; [|lia].
  rewrite str_get_chars.
  destruct (str_chars s !! Z.to_nat i) as [c|] eqn:Hget; [by exists c|].
  apply lookup_ge_None in Hget. rewrite <-str_length_chars in Hget. lia.
Qed.

Lemma str_index_Ret s i c :
  0 ≤ i → str_index s i = Ret c → str_chars s !! Z.to_nat i = Some c.
Proof.
  unfold str_index, py_norm. intros Hi.
  destruct (i <? 0) eqn:Hneg; [lia|].
  destruct ((0 <=? i) && (i <? Z.of_nat (String.length s))); [|done].
  rewrite str_get_chars. destruct (str_chars s !! Z.to_nat i); naive_solver.
Qed.

(** ** The dictionary filter *)

Lemma read_dict_words_filter lines :
  read_dict_words lines =
  filter (λ word, 2 < len word < 18) (str_strip <$> lines).
Proof.
  unfold read_dict_words.
  assert (∀ acc,
    foldl (λ dict_words line,
             let word := str_strip line in
             if (len word >? 2) && (len word <? 18) then dict_words ++ [word]
             else dict_words) acc lines
    = acc ++ filter (λ word, 2 < len word < 18) (str_strip <$> lines)) as Hgen.
  { induction lines as [|line lines IH]; intros acc; simpl.
    - by rewrite app_nil_r.
    - rewrite IH, filter_cons. case_decide as Hlen.
      + replace ((len (str_strip line) >? 2) && (len (str_strip line) <? 18))
          with true by lia.
        by rewrite <-app_assoc.
      + replace ((len (str_strip line) >? 2) && (len (str_strip line) <? 18))
          with false by lia.
        done. }
  apply (Hgen []).
Qed.

Lemma alphabet_NoDup : NoDup (str_chars alphabet).
Proof. compute_done. Qed.

Lemma q_in_alphabet : "q"%char ∈ str_chars alphabet.
Proof. compute_done. Qed.

Lemma u_in_alphabet : "u"%char ∈ str_chars alphabet.
Proof. compute_done. Qed.

Lemma is_lower_alphabet c : is_lower c = true → c ∈ str_chars alphabet.
Proof.
  destruct c as [[] [] [] [] [] [] [] []]; intros Hc; vm_compute in Hc;
    first [discriminate Hc | compute_done].
Qed.

Lemma elem_of_list_remove_first x c l :
  NoDup l → c ∈ list_remove_first x l ↔ c ∈ l ∧ c ≠ x.
Proof.
  induction 1 as [|y l Hy Hnd IH]; simpl.
  - split; [by intros ?%elem_of_nil|by intros [?%elem_of_nil _]].
  - destruct (decide (y = x)) as [->|Hne].
    + rewrite elem_of_cons. naive_solver.
    + rewrite !elem_of_cons, IH. naive_solver.
Qed.

Lemma elem_of_missing_letters board c :
  c ∈ missing_letters_of board ↔
  c ∈ str_chars alphabet ∧ ¬ counts_as_present board c.
Proof.
  unfold missing_letters_of, counts_as_present.
  set (missing := filter _ (str_chars alphabet)).
  assert (∀ d, d ∈ missing ↔ str_contains d board = false ∧ d ∈ str_chars alphabet)
    as Hm by (intros d; unfold missing; by rewrite list_elem_of_filter).
  assert (NoDup missing) as Hnd by (apply NoDup_filter, alphabet_NoDup).
  pose proof q_in_alphabet as Hq. pose proof u_in_alphabet as Hu.
  destruct (bool_decide ("q"%char ∉ missing) && bool_decide ("u"%char ∈ missing))
    eqn:Hcond.
  - apply andb_true_iff in Hcond as [Hq'%bool_decide_eq_true Hu'%bool_decide_eq_true].
    rewrite elem_of_list_remove_first, Hm by done.
    rewrite Hm in Hq'. rewrite Hm in Hu'.
    destruct (str_contains "q" board) eqn:Hqb; [|naive_solver].
    destruct (str_contains c board); naive_solver.
  - rewrite Hm. apply andb_false_iff in Hcond as [Hc|Hc].
    + apply bool_decide_eq_false in Hc. apply dec_stable in Hc.
      apply Hm in Hc as [Hc _]. rewrite Hc.
      destruct (str_contains c board); naive_solver.
    + apply bool_decide_eq_false in Hc. rewrite Hm in Hc.
      destruct (str_contains "u" board) eqn:Hub; [|naive_solver].
      destruct (str_contains c board) eqn:Hcb; [naive_solver|].
      split; [|naive_solver]. intros [_ Hin]. split; [done|].
      intros [?|[-> _]]; congruence.
Qed.

Lemma elem_of_present_letters board c :
  c ∈ present_letters_of board ↔
  c ∈ str_chars alphabet ∧ counts_as_present board c.
Proof.
  unfold present_letters_of. rewrite list_elem_of_filter, elem_of_missing_letters.
  destruct (decide (counts_as_present board c)); naive_solver.
Qed.

Lemma scan_missing_spec missing word (remove_words : gset string) :
  (scan_missing missing word remove_words).2 =
  if decide (Exists (λ c, str_contains c word = true) missing)
  then remove_words ∪ {[word]} else remove_words.
Proof.
  unfold scan_missing.
  set (step := λ (st : bool * gset string) (letter : ascii),
         let '(has_missing_letters, remove_words) := st in
         if has_missing_letters : bool then st
         else if str_contains letter word then (true, remove_words ∪ {[word]})
         else st).
  assert (∀ l rw, foldl step (true, rw) l = (true, rw)) as Hset.
  { induction l as [|c l IH]; intros rw; simpl; [done|apply IH]. }
  induction missing as [|c l IH]; cbn [foldl].
  - case_decide as He; [by apply Exists_nil in He|done].
  - unfold step at 2. destruct (str_contains c word) eqn:Hc.
    + rewrite Hset. simpl. rewrite decide_True; [done|]. by left.
    + rewrite IH. destruct (decide (Exists _ l)) as [Hl|Hl].
      * rewrite decide_True; [done|]. by right.
      * rewrite decide_False; [done|]. intros [?|?]%Exists_cons; [congruence|done].
Qed.

Lemma elem_of_remove_words missing dict_words word :
  word ∈ remove_words_of missing dict_words ↔
  word ∈ dict_words ∧ Exists (λ c, str_contains c word = true) missing.
Proof.
  unfold remove_words_of.
  assert (∀ l (acc : gset string),
    word ∈ foldl (λ remove_words w, (scan_missing missing w remove_words).2) acc l
    ↔ word ∈ acc ∨ (word ∈ l ∧ Exists (λ c, str_contains c word = true) missing))
    as Hgen.
  { induction l as [|w l IH]; intros acc; simpl.
    - split; [by left|]. by intros [?|[?%elem_of_nil _]].
    - rewrite IH, scan_missing_spec, elem_of_cons.
      destruct (decide (Exists _ missing)) as [He|He]; [|naive_solver].
      rewrite elem_of_union, elem_of_singleton. naive_solver. }
  rewrite Hgen. split; [|by right]. by intros [?%not_elem_of_empty|?].
Qed.

Lemma elem_of_unsorted_valid_words lines board word :
  word ∈ unsorted_valid_words lines board ↔
  word ∈ str_strip <$> lines ∧ 3 ≤ len word ≤ 17 ∧ no_absent_letter board word.
Proof.
  unfold unsorted_valid_words.
  rewrite list_elem_of_filter, elem_of_remove_words, read_dict_words_filter,
    list_elem_of_filter, Exists_exists.
  unfold no_absent_letter. setoid_rewrite elem_of_missing_letters.
  split.
  - intros [Hno [Hlen Hin]]. split; [done|]. split; [lia|].
    intros c Hc Hcw. destruct (decide (counts_as_present board c)); [done|].
    destruct Hno. split; [by split|]. by exists c.
  - intros (Hin & Hlen & Hno). split; [|split; [lia|done]].
    intros [_ (c & [Hc Hnc] & Hcw)]. by apply Hnc, Hno.
Qed.

Lemma unsorted_valid_words_lowercase lines board word :
  lowercase_dictionary lines → word ∈ unsorted_valid_words lines board →
  lowercase_word word.
Proof.
  intros Hlow [Hin _]%elem_of_unsorted_valid_words.
  apply list_elem_of_fmap in Hin as (line & -> & Hline).
  unfold lowercase_dictionary in Hlow. rewrite Forall_forall in Hlow. by apply Hlow.
Qed.

(** ** The index of first-two-letter buckets *)

Lemma bucket_of_lookup (valid_words : gmap ascii (gmap ascii (list string))) a b bucket :
  bucket_of valid_words a b = Ret bucket ↔
  ∃ bucket_row, valid_words !! a = Some bucket_row ∧ bucket_row !! b = Some bucket.
Proof.
  unfold bucket_of, dict_index. res_simpl.
  destruct (valid_words !! a) as [r|]; res_simpl; [|naive_solver].
  destruct (r !! b) eqn:Hb; naive_solver.
Qed.

Lemma set_empty_bucket_Ret first second
    (valid_words : gmap ascii (gmap ascii (list string))) bucket_row :
  valid_words !! first = Some bucket_row →
  set_empty_bucket first second valid_words
  = Ret (<[first := <[second := []]> bucket_row]> valid_words).
Proof. intros Hrow. unfold set_empty_bucket, dict_index. by rewrite Hrow. Qed.

Lemma empty_row_loop first l (valid_words : gmap ascii (gmap ascii (list string))) bucket_row :
  valid_words !! first = Some bucket_row →
  ∃ row', for_each (λ valid_words second, set_empty_bucket first second valid_words)
                   l valid_words = Ret (<[first := row']> valid_words)
          ∧ ∀ b, row' !! b = if decide (b ∈ l) then Some [] else bucket_row !! b.
Proof.
  revert valid_words bucket_row.
  induction l as [|c l IH]; intros valid_words bucket_row Hrow; cbn [for_each].
  - exists bucket_row. split; [by rewrite insert_id|].
    intros b. rewrite decide_False; [done|]. by intros ?%elem_of_nil.
  - rewrite (set_empty_bucket_Ret _ _ _ _ Hrow). res_simpl.
    destruct (IH (<[first := <[c := []]> bucket_row]> valid_words)
                 (<[c := []]> bucket_row)) as (row' & Hrun & Hlook).
    { apply lookup_insert_eq. }
    exists row'. rewrite Hrun, insert_insert_eq. split; [done|].
    intros b. rewrite Hlook, lookup_insert.
    destruct (decide (b ∈ l)), (decide (c = b)) as [->|].
    + rewrite decide_True; [done|by right].
    + rewrite decide_True; [done|by right].
    + rewrite decide_True; [done|by left].
    + rewrite decide_False; [done|]. intros [->|?]%elem_of_cons; done.
Qed.

Lemma empty_index_loop present l (valid_words : gmap ascii (gmap ascii (list string))) :
  ∃ valid_words', for_each (λ valid_words first_word_letter,
              for_each (λ valid_words second_word_letter,
                          set_empty_bucket first_word_letter second_word_letter
                                           valid_words)
                       present (<[first_word_letter := ∅]> valid_words))
           l valid_words = Ret valid_words'
    ∧ ∀ a, if decide (a ∈ l)
           then ∃ bucket_row, valid_words' !! a = Some bucket_row
                  ∧ ∀ b, bucket_row !! b = if decide (b ∈ present) then Some [] else None
           else valid_words' !! a = valid_words !! a.
Proof.
  revert valid_words. induction l as [|c l IH]; intros valid_words; cbn [for_each].
  - exists valid_words. split; [done|]. intros a.
    rewrite decide_False; [done|]. by intros ?%elem_of_nil.
  - destruct (empty_row_loop c present (<[c := ∅]> valid_words) ∅)
      as (row' & Hrun & Hlook); [apply lookup_insert_eq|].
    rewrite Hrun. res_simpl. rewrite insert_insert_eq.
    destruct (IH (<[c := row']> valid_words)) as (vw' & Hrun' & Hlook').
    exists vw'. split; [done|]. intros a. specialize (Hlook' a).
    destruct (decide (a ∈ l)) as [Hal|Hal].
    + rewrite decide_True; [done|by right].
    + destruct (decide (a = c)) as [->|Hne].
      * rewrite decide_True; [|by left]. exists row'.
        rewrite Hlook', lookup_insert_eq. split; [done|].
        intros b. rewrite Hlook. by rewrite lookup_empty.
      * rewrite decide_False; [|intros [?|?]%elem_of_cons; done].
        by rewrite Hlook', lookup_insert_ne.
Qed.

Lemma empty_index_spec present :
  ∃ valid_words, empty_index present ∅ = Ret valid_words
                 ∧ index_for present [] valid_words.
Proof.
  destruct (empty_index_loop present present ∅) as (vw & Hrun & Hlook).
  exists vw. split; [done|]. intros a b. specialize (Hlook a).
  unfold bucket_of, dict_index. res_simpl.
  destruct (decide (a ∈ present)) as [Ha|Ha].
  - destruct Hlook as (r & -> & Hr). res_simpl. rewrite Hr.
    destruct (decide (b ∈ present)).
    + rewrite decide_True; done.
    + rewrite decide_False; [done|naive_solver].
  - rewrite Hlook, lookup_empty. res_simpl. rewrite decide_False; [done|naive_solver].
Qed.

Lemma starts_with_unique a b a' b' word :
  starts_with a b word → starts_with a' b' word → a = a' ∧ b = b'.
Proof. unfold starts_with. naive_solver. Qed.

Lemma str_index_starts word c0 c1 :
  str_index word 0 = Ret c0 → str_index word 1 = Ret c1 → starts_with c0 c1 word.
Proof.
  intros H0%str_index_Ret H1%str_index_Ret; [|lia..]. by split.
Qed.

Lemma starts_with_str_index word a b :
  starts_with a b word → str_index word 0 = Ret a ∧ str_index word 1 = Ret b.
Proof.
  intros [H0 H1]. pose proof (lookup_lt_Some _ _ _ H1) as Hlen.
  destruct (str_index_chars word 0) as (c0 & Hc0 & Hl0); [rewrite len_chars; lia|].
  destruct (str_index_chars word 1) as (c1 & Hc1 & Hl1); [rewrite len_chars; lia|].
  change (Z.to_nat 0) with 0%nat in Hl0. change (Z.to_nat 1) with 1%nat in Hl1.
  split; congruence.
Qed.

Lemma append_word_Ret present words valid_words word valid_words' :
  index_for present words valid_words →
  append_word valid_words word = Ret valid_words' →
  index_for present (words ++ [word]) valid_words' ∧ keyed present word.
Proof.
  intros Hidx Hrun. unfold append_word in Hrun.
  apply res_bind_Ret in Hrun as (c0 & H0 & Hrun).
  apply res_bind_Ret in Hrun as (r & Hr%dict_index_Ret & Hrun).
  apply res_bind_Ret in Hrun as (c1 & H1 & Hrun).
  apply res_bind_Ret in Hrun as (bucket & Hb%dict_index_Ret & Hrun).
  injection Hrun as <-.
  pose proof (str_index_starts _ _ _ H0 H1) as Hst.
  assert (bucket_of valid_words c0 c1 = Ret bucket) as Hbk
    by (apply bucket_of_lookup; eauto).
  rewrite Hidx in Hbk. case_decide as Hpres; [|done].
  injection Hbk as <-. split; [|by exists c0, c1].
  intros a b. rewrite filter_app.
  destruct (decide (a = c0)) as [->|Ha].
  - unfold bucket_of, dict_index.
    rewrite lookup_insert_eq. res_simpl. destruct (decide (b = c1)) as [->|Hbne].
    + rewrite lookup_insert_eq, decide_True by done.
      by rewrite filter_cons_True.
    + rewrite lookup_insert_ne by done.
      rewrite filter_cons_False, filter_nil, app_nil_r.
      * specialize (Hidx c0 b). unfold bucket_of, dict_index in Hidx.
        rewrite Hr in Hidx. by res_simpl.
      * intros Hst'. destruct (starts_with_unique _ _ _ _ _ Hst Hst'). done.
  - rewrite filter_cons_False, filter_nil, app_nil_r.
    + rewrite <-Hidx. unfold bucket_of, dict_index.
      by rewrite lookup_insert_ne.
    + intros Hst'. destruct (starts_with_unique _ _ _ _ _ Hst Hst'). done.
Qed.

Lemma append_word_ok present words valid_words word :
  index_for present words valid_words → keyed present word →
  ∃ valid_words', append_word valid_words word = Ret valid_words'.
Proof.
  intros Hidx (a & b & Hst & Ha & Hb).
  destruct (starts_with_str_index _ _ _ Hst) as [H0 H1].
  specialize (Hidx a b). rewrite decide_True in Hidx by done.
  apply bucket_of_lookup in Hidx as (r & Hr & Hbk).
  unfold append_word, dict_index.
  rewrite H0. res_simpl. rewrite Hr. res_simpl. rewrite H1. res_simpl.
  rewrite Hbk. res_simpl. eauto.
Qed.

Lemma append_words_Ret present new_words words valid_words valid_words' :
  index_for present words valid_words →
  for_each append_word new_words valid_words = Ret valid_words' →
  index_for present (words ++ new_words) valid_words'
  ∧ Forall (keyed present) new_words.
Proof.
  revert words valid_words.
  induction new_words as [|w l IH]; intros words valid_words Hidx; simpl.
  - intros [= <-]. by rewrite app_nil_r.
  - intros Hrun. apply res_bind_Ret in Hrun as (vw1 & Hw & Hrun). destruct (append_word_Ret _ _ _ _ _ Hidx Hw) as [Hidx1 Hk].
    destruct (IH _ _ Hidx1 Hrun) as [Hidx' Hks].
    rewrite <-app_assoc in Hidx'. by split; [|constructor].
Qed.

Lemma append_words_ok present new_words words valid_words :
  index_for present words valid_words → Forall (keyed present) new_words →
  ∃ valid_words', for_each append_word new_words valid_words = Ret valid_words'.
Proof.
  intros Hidx Hks. revert words valid_words Hidx.
  induction Hks as [|w l Hk Hks IH]; intros words valid_words Hidx; simpl; [eauto|].
  destruct (append_word_ok _ _ _ _ Hidx Hk) as (vw1 & Hw). rewrite Hw. res_simpl.
  destruct (append_word_Ret _ _ _ _ _ Hidx Hw) as [Hidx1 _]. by eapply IH.
Qed.

Lemma load_dictionary_Ret lines board valid_words :
  _load_dictionary lines board = Ret valid_words →
  index_for (present_letters_of board) (unsorted_valid_words lines board) valid_words
  ∧ Forall (keyed (present_letters_of board)) (unsorted_valid_words lines board).
Proof.
  unfold _load_dictionary.
  destruct (empty_index_spec (present_letters_of board)) as (vw0 & -> & Hidx0).
  res_simpl. apply (append_words_Ret _ _ [] _ _ Hidx0).
Qed.

Lemma load_dictionary_ok lines board :
  Forall (keyed (present_letters_of board)) (unsorted_valid_words lines board) →
  ∃ valid_words, _load_dictionary lines board = Ret valid_words.
Proof.
  unfold _load_dictionary.
  destruct (empty_index_spec (present_letters_of board)) as (vw0 & -> & Hidx0).
  res_simpl. by apply (append_words_ok _ _ [] _ Hidx0).
Qed.
Lemma lowercase_keyed lines board word :
  lowercase_dictionary lines → word ∈ unsorted_valid_words lines board →
  keyed (present_letters_of board) word.
Proof.
  intros Hlow Hin.
  pose proof (unsorted_valid_words_lowercase _ _ _ Hlow Hin) as Hlw.
  apply elem_of_unsorted_valid_words in Hin as (_ & Hlen & Hno).
  rewrite len_chars in Hlen. unfold lowercase_word in Hlw.
  destruct (str_chars word) as [|a [|b l]] eqn:Hchars; simpl in Hlen; [lia..|].
  assert (∀ c, c ∈ str_chars word → c ∈ present_letters_of board) as Hpres.
  { intros c Hc. rewrite Hchars in Hc. rewrite Forall_forall in Hlw.
    apply elem_of_present_letters. split; [by apply is_lower_alphabet, Hlw|].
    apply Hno; [by apply is_lower_alphabet, Hlw|].
    apply str_contains_chars. by rewrite Hchars. }
  exists a, b. unfold starts_with. rewrite Hchars. split; [done|].
  split; apply Hpres; rewrite Hchars; set_solver.
Qed.

Lemma load_dictionary_lowercase lines board :
  lowercase_dictionary lines →
  ∃ valid_words, _load_dictionary lines board = Ret valid_words.
Proof.
  intros Hlow. apply load_dictionary_ok, Forall_forall.
  intros word Hin. by eapply lowercase_keyed.
Qed.

Lemma indexed_unsorted_valid_words lines board valid_words word :
  _load_dictionary lines board = Ret valid_words →
  indexed valid_words word ↔ word ∈ unsorted_valid_words lines board.
Proof.
  intros [Hidx Hkeyed]%load_dictionary_Ret. unfold indexed. split.
  - intros (a & b & r & bucket & Hr & Hb & Hin).
    assert (bucket_of valid_words a b = Ret bucket) as Hbk
      by (apply bucket_of_lookup; eauto).
    rewrite Hidx in Hbk. case_decide; [|done]. injection Hbk as <-.
    by apply list_elem_of_filter in Hin as [_ ?].
  - intros Hin. rewrite Forall_forall in Hkeyed.
    destruct (Hkeyed _ Hin) as (a & b & Hst & Ha & Hb).
    specialize (Hidx a b). rewrite decide_True in Hidx by done.
    apply bucket_of_lookup in Hidx as (r & Hr & Hbk).
    eexists a, b, r, _. split; [done|]. split; [done|].
    by apply list_elem_of_filter.
Qed.

(** C4: whenever the index is built, a word is in it if and only if it is a
    stripped line of the raw list with at least 3 and at most 17 characters
    and no letter absent from the board, 'u' counting as present when the
    board holds 'q'; and the index is built for every dictionary of
    lowercase words. *)
Theorem dictionary_filter_membership (lines : list string) (board : string) :
  (lowercase_dictionary lines →
   ∃ valid_words, _load_dictionary lines board = Ret valid_words)
  ∧ (∀ valid_words word,
       _load_dictionary lines board = Ret valid_words →
       indexed valid_words word ↔
       word ∈ str_strip <$> lines ∧ 3 ≤ len word ≤ 17
       ∧ ∀ c, c ∈ str_chars alphabet → str_contains c word = true →
              str_contains c board = true
              ∨ (c = "u"%char ∧ str_contains "q"%char board = true)).
Proof.
  split; [apply load_dictionary_lowercase|].
  intros valid_words word Hload.
  rewrite (indexed_unsorted_valid_words _ _ _ _ Hload).
  apply elem_of_unsorted_valid_words.
Qed.

Lemma dictionary_filter_membership_witness :
  ∃ valid_words,
    _load_dictionary ["via"; "quiz"; "vivid"] "vvvvvviavvvvvvvq" = Ret valid_words
    ∧ indexed valid_words "via".
Proof.
  destruct (dictionary_filter_membership ["via"; "quiz"; "vivid"] "vvvvvviavvvvvvvq")
    as [Hbuilt Hiff].
  destruct Hbuilt as [valid_words Hload].
  { unfold lowercase_dictionary, lowercase_word. compute_done. }
  exists valid_words. split; [exact Hload|].
  apply (Hiff valid_words "via" Hload).
  split; [compute_done|]. split; [compute_done|].
  rewrite <-Forall_forall. compute_done.
Defined.

(** ** The board and the words of paths *)

Lemma str_app_assoc s1 s2 s3 : (s1 +:+ s2) +:+ s3 = s1 +:+ (s2 +:+ s3).
Proof. apply str_chars_inj. by rewrite !str_chars_app, app_assoc. Qed.

Lemma str_app_nil_r s : s +:+ "" = s.
Proof. apply str_chars_inj. by rewrite str_chars_app, app_nil_r. Qed.

Lemma valid_board_index board pos :
  valid_board board → 0 ≤ pos ≤ 15 →
  ∃ c, str_index board pos = Ret c
       ∧ String.get (Z.to_nat pos) board = Some c
       ∧ is_lower c = true.
Proof.
  intros [Hlen Hlow] Hpos.
  destruct (str_index_chars board pos) as (c & Hc & Hget).
  { unfold len. lia. }
  exists c. split; [done|]. split; [by rewrite str_get_chars|].
  rewrite Forall_forall in Hlow. apply Hlow. by eapply list_elem_of_lookup_2.
Qed.

Lemma spell_step_cell board cur_word pos :
  valid_board board → 0 ≤ pos ≤ 15 →
  spell_step board cur_word pos = Ret (cur_word +:+ cell_text board pos).
Proof.
  intros Hb Hpos. destruct (valid_board_index _ _ Hb Hpos) as (c & Hc & Hget & _).
  unfold spell_step, cell_text. rewrite Hc, Hget. res_simpl.
  case_decide as Hq; [|done]. subst c. by rewrite str_app_assoc.
Qed.

Lemma spelled_cons board pos path :
  spelled board (pos :: path) = cell_text board pos +:+ spelled board path.
Proof. done. Qed.

Lemma spelled_app board path1 path2 :
  spelled board (path1 ++ path2) = spelled board path1 +:+ spelled board path2.
Proof.
  induction path1 as [|p path1 IH]; [done|].
  simpl. by rewrite !spelled_cons, IH, str_app_assoc.
Qed.

Lemma build_cur_word_spelled board cur_path :
  valid_board board → Forall (λ pos, 0 ≤ pos ≤ 15) cur_path →
  build_cur_word board cur_path = Ret (spelled board cur_path).
Proof.
  intros Hb Hpath. unfold build_cur_word.
  assert (∀ acc, for_each (spell_step board) cur_path acc
                 = Ret (acc +:+ spelled board cur_path)) as Hgen.
  { induction Hpath as [|p path Hp Hpath IH]; intros acc; cbn [for_each].
    - by rewrite str_app_nil_r.
    - rewrite spell_step_cell by done. res_simpl.
      by rewrite IH, spelled_cons, str_app_assoc. }
  apply Hgen.
Qed.

(** A cell gives one character, or two when it holds 'q'. *)
Lemma cell_text_chars board pos :
  valid_board board → 0 ≤ pos ≤ 15 →
  ∃ c, String.get (Z.to_nat pos) board = Some c ∧ is_lower c = true
       ∧ str_chars (cell_text board pos)
         = if decide (c = "q"%char) then ["q"%char; "u"%char] else [c].
Proof.
  intros Hb Hpos. destruct (valid_board_index _ _ Hb Hpos) as (c & _ & Hget & Hlow).
  exists c. split; [done|]. split; [done|].
  unfold cell_text. rewrite Hget. by case_decide.
Qed.

Lemma cell_text_length board pos :
  valid_board board → 0 ≤ pos ≤ 15 → 1 ≤ len (cell_text board pos) ≤ 2.
Proof.
  intros Hb Hpos. destruct (cell_text_chars _ _ Hb Hpos) as (c & _ & _ & Hc).
  rewrite len_chars, Hc. case_decide; simpl; lia.
Qed.

Lemma len_app s1 s2 : len (s1 +:+ s2) = len s1 + len s2.
Proof. rewrite !len_chars, str_chars_app, length_app. lia. Qed.

Lemma spelled_length board path :
  valid_board board → Forall (λ pos, 0 ≤ pos ≤ 15) path →
  Z.of_nat (length path) ≤ len (spelled board path) ≤ 2 * Z.of_nat (length path).
Proof.
  intros Hb. induction 1 as [|p path Hp Hpath IH]; [done|].
  rewrite spelled_cons, len_app. pose proof (cell_text_length _ _ Hb Hp).
  simpl length. lia.
Qed.

Lemma cell_text_present board pos c :
  valid_board board → 0 ≤ pos ≤ 15 → c ∈ str_chars (cell_text board pos) →
  c ∈ present_letters_of board.
Proof.
  intros Hb Hpos Hin. destruct (cell_text_chars _ _ Hb Hpos) as (d & Hget & Hlow & Hc).
  rewrite Hc in Hin. rewrite str_get_chars in Hget.
  assert (str_contains d board = true) as Hd.
  { apply str_contains_chars. by eapply list_elem_of_lookup_2. }
  apply elem_of_present_letters. case_decide as Hq.
  - subst d. apply elem_of_cons in Hin as [->|Hin].
    + split; [apply q_in_alphabet|by left].
    + apply list_elem_of_singleton in Hin as ->.
      split; [apply u_in_alphabet|by right].
  - apply list_elem_of_singleton in Hin as ->.
    split; [by apply is_lower_alphabet|by left].
Qed.

Lemma spelled_present board path c :
  valid_board board → Forall (λ pos, 0 ≤ pos ≤ 15) path →
  c ∈ str_chars (spelled board path) → c ∈ present_letters_of board.
Proof.
  intros Hb. induction 1 as [|p path Hp Hpath IH]; [by intros ?%elem_of_nil|].
  rewrite spelled_cons, str_chars_app, elem_of_app.
  intros [Hin|Hin]; [by eapply cell_text_present|by apply IH].
Qed.

(** ** The pieces of [_find_words] *)

Lemma build_possible_index_moves_lookup cache i :
  0 ≤ i ≤ 15 →
  _build_possible_index_moves cache !! i = Some (_get_possible_index_moves i).
Proof.
  intros Hi. unfold _build_possible_index_moves.
  assert (∀ l (d : gmap Z (gset Z)),
    foldl (λ d i, <[i := _get_possible_index_moves i]> d) d l !! i
    = if decide (i ∈ l) then Some (_get_possible_index_moves i) else d !! i) as Hgen.
  { induction l as [|j l IH]; intros d; cbn [foldl].
    - rewrite decide_False; [done|]. by intros ?%elem_of_nil.
    - rewrite IH. destruct (decide (i ∈ l)) as [Hl|Hl].
      + rewrite decide_True; [done|by right].
      + destruct (decide (i = j)) as [->|Hne].
        * rewrite decide_True; [|by left]. apply lookup_insert_eq.
        * rewrite decide_False; [|intros [?|?]%elem_of_cons; done].
          by rewrite lookup_insert_ne. }
  rewrite Hgen, decide_True; [done|]. apply elem_of_seqZ. lia.
Qed.

Lemma marks_start : marks (replicate 16 false) [].
Proof.
  split; [by rewrite length_replicate|]. intros pos Hpos.
  rewrite lookup_replicate_2 by lia. rewrite bool_decide_eq_false_2; [done|].
  by intros ?%elem_of_nil.
Qed.

Lemma py_norm_range n i :
  0 ≤ i < n → py_norm n i = i ∧ (0 <=? i) && (i <? n) = true.
Proof.
  intros Hi. unfold py_norm. destruct (i <? 0) eqn:Hneg; [lia|].
  split; [done|]. apply andb_true_iff. lia.
Qed.

Lemma marks_setitem used_letter path index :
  marks used_letter path → 0 ≤ index ≤ 15 →
  list_setitem used_letter index true = Ret (<[Z.to_nat index := true]> used_letter)
  ∧ marks (<[Z.to_nat index := true]> used_letter) (path ++ [index]).
Proof.
  intros [Hlen Hmarks] Hindex. split.
  - unfold list_setitem. rewrite Hlen.
    destruct (py_norm_range (Z.of_nat 16) index) as [-> ->]; [lia|done].
  - split; [by rewrite length_insert|]. intros pos Hpos.
    destruct (decide (pos = index)) as [->|Hne].
    + rewrite list_lookup_insert_eq by lia.
      rewrite bool_decide_eq_true_2; [done|]. set_solver.
    + rewrite list_lookup_insert_ne by lia. rewrite Hmarks by done.
      f_equal. apply bool_decide_ext. set_solver.
Qed.

Lemma marks_index used_letter path pos :
  marks used_letter path → 0 ≤ pos ≤ 15 →
  list_index used_letter pos = Ret (bool_decide (pos ∈ path)).
Proof.
  intros [Hlen Hmarks] Hpos. unfold list_index. rewrite Hlen.
  destruct (py_norm_range (Z.of_nat 16) pos) as [-> ->]; [lia|].
  by rewrite Hmarks.
Qed.

Lemma available_moves_filter used_letter path index (l : list Z) :
  marks used_letter path → Forall (λ move, 0 ≤ index + move ≤ 15) l →
  comprehension_if
    (λ move, used ← list_index used_letter (index + move); mret (negb used)) l
  = Ret (filter (λ move, index + move ∉ path) l).
Proof.
  intros Hmarks. induction 1 as [|move l Hmove Hl IH]; cbn [comprehension_if]; [done|].
  rewrite (marks_index _ _ _ Hmarks Hmove), IH. res_simpl.
  case_bool_decide as Hin; simpl.
  - by rewrite filter_cons_False by (by intros ?).
  - by rewrite filter_cons_True.
Qed.

Lemma simple_path_length adj path : simple_path adj path → (length path ≤ 16)%nat.
Proof.
  intros (_ & Hrange & Hnd & _).
  assert (path ⊆+ seqZ 0 16) as Hsub.
  { apply NoDup_submseteq; [done|]. intros pos Hpos.
    rewrite Forall_forall in Hrange. apply elem_of_seqZ.
    specialize (Hrange _ Hpos). lia. }
  apply submseteq_length in Hsub. by rewrite length_seqZ in Hsub.
Qed.

Lemma linked_app_inv adj l a b r :
  linked adj (l ++ a :: b :: r) → adj a b ∧ linked adj (l ++ [a]).
Proof.
  induction l as [|x l IH]; [simpl; tauto|].
  destruct l as [|y l]; simpl in *; [tauto|].
  intros [Hxy Hrest]. destruct (IH Hrest). tauto.
Qed.

Lemma linked_snoc adj l a b :
  linked adj (l ++ [a]) → adj a b → linked adj ((l ++ [a]) ++ [b]).
Proof.
  intros Hl Hab. induction l as [|x l IH]; [simpl; tauto|].
  destruct l as [|y l]; simpl in *; [tauto|].
  destruct Hl as [Hxy Hrest]. split; [done|]. by apply IH.
Qed.

Lemma linked_app_l adj l r : linked adj (l ++ r) → linked adj l.
Proof.
  induction l as [|x l IH]; [done|].
  destruct l as [|y l]; [done|]. simpl. intros [Hxy Hrest]. split; [done|].
  by apply IH.
Qed.

(** ** The search, for a validated board and an index that was built *)

Section search_correct.
Context (iter_moves : gset Z → list Z).
Context (iter_moves_perm : ∀ moves, iter_moves moves ≡ₚ elements moves).
Context (cache : gmap Z (gset Z)) (lines : list string) (board : string).
Context (valid_words : gmap ascii (gmap ascii (list string))).
Context (Hboard : valid_board board).
Context (Hload : _load_dictionary lines board = Ret valid_words).

Local Abbreviation words := (unsorted_valid_words lines board).
Local Abbreviation table := (_build_possible_index_moves cache).

Lemma elem_of_iter_moves move moves : move ∈ iter_moves moves ↔ move ∈ moves.
Proof. by rewrite iter_moves_perm, elem_of_elements. Qed.

Lemma words_length word : word ∈ words → 3 ≤ len word ≤ 17.
Proof. by intros (_ & ? & _)%elem_of_unsorted_valid_words. Qed.

Lemma word_bucket_spelled path :
  Forall (λ pos, 0 ≤ pos ≤ 15) path → (2 ≤ length path)%nat →
  ∃ a b, starts_with a b (spelled board path)
         ∧ word_bucket valid_words (spelled board path)
           = Ret (filter (starts_with a b) words).
Proof using Hboard Hload.
  clear iter_moves_perm. intros Hrange Hlen.
  pose proof (spelled_length _ _ Hboard Hrange) as Hsl. rewrite len_chars in Hsl.
  destruct (str_chars (spelled board path)) as [|a [|b rest]] eqn:Hchars;
    simpl in Hsl; [lia..|].
  assert (starts_with a b (spelled board path)) as Hst.
  { unfold starts_with. by rewrite Hchars. }
  assert (a ∈ present_letters_of board ∧ b ∈ present_letters_of board) as Hpres.
  { split; apply (spelled_present _ path _ Hboard Hrange); rewrite Hchars;
      set_solver. }
  exists a, b. split; [done|].
  destruct (load_dictionary_Ret _ _ _ Hload) as [Hidx _].
  specialize (Hidx a b). rewrite decide_True in Hidx by done.
  apply bucket_of_lookup in Hidx as (r & Hr & Hbk).
  destruct (starts_with_str_index _ _ _ Hst) as [H0 H1].
  unfold word_bucket, dict_index. rewrite H0. res_simpl. rewrite Hr. res_simpl.
  rewrite H1. res_simpl. by rewrite Hbk.
Qed.

Lemma starts_with_prefix a b s word :
  starts_with a b s → str_chars s `prefix_of` str_chars word →
  starts_with a b word.
Proof.
  intros [H0 H1] [k Hk]. unfold starts_with. rewrite Hk.
  split; by apply lookup_app_l_Some.
Qed.

Lemma score_path_spec cur_path found_words :
  cur_path ≠ [] → Forall (λ pos, 0 ≤ pos ≤ 15) cur_path →
  ∃ is_word_start found_words',
    score_path board valid_words cur_path found_words
    = Ret (is_word_start, found_words')
    ∧ (∀ word, word ∈ found_words' ↔
               word ∈ found_words ∨ (word = spelled board cur_path ∧ word ∈ words))
    ∧ (is_word_start = false →
       ∀ word, word ∈ words →
               ¬ str_chars (spelled board cur_path) `prefix_of` str_chars word).
Proof using Hboard Hload.
  clear iter_moves_perm. intros Hne Hrange. unfold score_path.
  pose proof (spelled_length _ _ Hboard Hrange) as Hsl.
  case_bool_decide as Hone.
  - exists true, found_words. split; [done|]. split; [|done].
    intros word. split; [by left|]. intros [?|[-> Hin]]; [done|].
    apply words_length in Hin. lia.
  - assert (2 ≤ length cur_path)%nat as Hlen.
    { destruct cur_path as [|? [|? ?]]; simpl in *; try done; lia. }
    rewrite build_cur_word_spelled by done. res_simpl.
    destruct (word_bucket_spelled _ Hrange Hlen) as (a & b & Hst & ->).
    res_simpl. set (cur_word := spelled board cur_path) in *.
    set (bucket := filter (starts_with a b) words).
    assert (∀ word, word ∈ bucket ↔ starts_with a b word ∧ word ∈ words) as Hbucket
      by (intros word; apply list_elem_of_filter).
    assert (existsb (String.prefix cur_word) bucket = false →
            ∀ word, word ∈ words →
                    ¬ str_chars cur_word `prefix_of` str_chars word) as Hprune.
    { intros Hfalse word Hw Hpre.
      assert (existsb (String.prefix cur_word) bucket = true) as Htrue; [|congruence].
      apply existsb_exists. exists word. split.
      - apply list_elem_of_In, Hbucket. split; [|done].
        by eapply starts_with_prefix.
      - by apply str_prefix_chars. }
    destruct (len cur_word >? 2) eqn:Hgt; res_simpl.
    + eexists _, _. split; [done|]. split; [|done].
      intros word. case_bool_decide as Hin.
      * rewrite elem_of_union, elem_of_singleton.
        apply Hbucket in Hin. naive_solver.
      * split; [by left|]. intros [?|[-> Hw]]; [done|].
        destruct Hin. by apply Hbucket.
    + eexists _, _. split; [done|]. split; [|done].
      intros word. split; [by left|]. intros [?|[-> Hw]]; [done|].
      apply words_length in Hw. lia.
Qed.

Lemma open_moves_simple_path path index move :
  simple_path table_adjacent (path ++ [index]) →
  move ∈ open_moves iter_moves path index →
  simple_path table_adjacent ((path ++ [index]) ++ [index + move]).
Proof.
  intros (_ & Hrange & Hnd & Hlinked) [Hnew Hmove]%list_elem_of_filter.
  apply elem_of_iter_moves in Hmove.
  pose proof (get_moves_elem _ _ Hmove) as [_ Hin].
  split; [by destruct path|]. split; [|split].
  - apply Forall_app. split; [done|]. by constructor.
  - apply NoDup_app. split; [done|]. split; [|apply NoDup_singleton].
    intros pos Hpos ->%list_elem_of_singleton. done.
  - apply linked_snoc; [done|]. unfold table_adjacent.
    by replace (index + move - index) with move by lia.
Qed.

Lemma reach_step path index word :
  simple_path table_adjacent (path ++ [index]) →
  reach lines board (path ++ [index]) word ↔
  (word = spelled board (path ++ [index]) ∧ word ∈ words)
  ∨ ∃ move, move ∈ open_moves iter_moves path index
            ∧ reach lines board ((path ++ [index]) ++ [index + move]) word.
Proof.
  intros Hsimple. split.
  - intros [Hw (ext & Hext & Hsp)]. destruct ext as [|n ext].
    + left. rewrite app_nil_r in Hsp. by split.
    + right. exists (n - index). replace (index + (n - index)) with n by lia.
      pose proof Hext as (_ & Hrange & Hnd & Hlinked).
      rewrite <-app_assoc in Hlinked. simpl in Hlinked.
      apply linked_app_inv in Hlinked as [Hadj _].
      split.
      * apply list_elem_of_filter. split; [|by apply elem_of_iter_moves].
        replace (index + (n - index)) with n by lia.
        apply NoDup_app in Hnd as (_ & Hdisj & _).
        intros Hin. apply (Hdisj _ Hin). by left.
      * split; [done|]. exists ext.
        rewrite <-(app_assoc (path ++ [index]) [n] ext). done.
  - intros [[-> Hw]|(move & _ & Hw & ext & Hext & Hsp)].
    + split; [done|]. exists []. by rewrite app_nil_r.
    + split; [done|]. exists ((index + move) :: ext).
      rewrite <-app_assoc in Hext, Hsp. done.
Qed.

Lemma reach_pruned path index move word :
  Forall (λ pos, 0 ≤ pos ≤ 15) (path ++ [index]) →
  (∀ word, word ∈ words →
           ¬ str_chars (spelled board (path ++ [index])) `prefix_of` str_chars word) →
  ¬ reach lines board ((path ++ [index]) ++ [index + move]) word.
Proof.
  intros Hrange Hprune [Hw (ext & _ & Hsp)]. apply (Hprune _ Hw).
  rewrite <-Hsp, <-(app_assoc (path ++ [index])).
  rewrite (spelled_app _ (path ++ [index])), str_chars_app. by eexists.
Qed.

Lemma find_words_spec fuel : ∀ index used_letter_arg cur_path_arg found_words,
  simple_path table_adjacent (cur_path_arg ++ [index]) →
  marks used_letter_arg cur_path_arg →
  (16 ≤ fuel + length cur_path_arg)%nat →
  ∃ found_words',
    _find_words iter_moves table board valid_words fuel index used_letter_arg
                cur_path_arg found_words = Ret found_words'
    ∧ ∀ word, word ∈ found_words' ↔
              word ∈ found_words ∨ reach lines board (cur_path_arg ++ [index]) word.
Proof.
  induction fuel as [|fuel IH];
    intros index used_letter_arg cur_path_arg found_words Hsimple Hmarks Hfuel.
  { apply simple_path_length in Hsimple. rewrite length_app in Hsimple.
    simpl in *. lia. }
  pose proof Hsimple as (Hne & Hrange & Hnd & Hlinked).
  assert (0 ≤ index ≤ 15) as Hindex.
  { rewrite Forall_app, Forall_singleton in Hrange. tauto. }
  cbn [_find_words].
  destruct (marks_setitem _ _ _ Hmarks Hindex) as [-> Hmarks']. res_simpl.
  unfold dict_index at 1. rewrite build_possible_index_moves_lookup by done.
  res_simpl.
  rewrite (available_moves_filter _ _ _ _ Hmarks').
  2:{ apply Forall_forall. intros move Hmove%elem_of_iter_moves.
      by apply get_moves_elem in Hmove as [_ ?]. }
  res_simpl. fold (open_moves iter_moves cur_path_arg index).
  destruct (score_path_spec (cur_path_arg ++ [index]) found_words Hne Hrange)
    as (is_word_start & found1 & -> & Hfound1 & Hprune).
  res_simpl.
  assert (∀ l found,
    (∀ move, move ∈ l → move ∈ open_moves iter_moves cur_path_arg index) →
    ∃ found',
      for_each (λ found_words move,
                  _find_words iter_moves table board valid_words fuel
                    (index + move) (<[Z.to_nat index := true]> used_letter_arg)
                    (cur_path_arg ++ [index]) found_words) l found = Ret found'
      ∧ ∀ word, word ∈ found' ↔
                word ∈ found
                ∨ ∃ move, move ∈ l
                    ∧ reach lines board ((cur_path_arg ++ [index]) ++ [index + move])
                            word) as Hloop.
  { induction l as [|move l IHl]; intros found Hl; cbn [for_each].
    - exists found. split; [done|]. intros word. split; [by left|].
      intros [?|(? & ?%elem_of_nil & _)]; done.
    - destruct (IH (index + move) (<[Z.to_nat index := true]> used_letter_arg)
                   (cur_path_arg ++ [index]) found) as (found2 & -> & Hfound2).
      + apply open_moves_simple_path; [done|]. apply Hl. by left.
      + done.
      + rewrite length_app. simpl. lia.
      + res_simpl. destruct (IHl found2) as (found3 & -> & Hfound3).
        { intros m Hm. apply Hl. by right. }
        exists found3. split; [done|]. intros word.
        rewrite Hfound3, Hfound2. setoid_rewrite elem_of_cons. naive_solver. }
  destruct (Hloop (open_moves iter_moves cur_path_arg index) found1) as (found' & Hrun & Hfound');
    [done|].
  destruct (is_word_start && bool_decide (open_moves iter_moves cur_path_arg index ≠ []))
    eqn:Hgo.
  - exists found'. split; [done|]. intros word.
    rewrite Hfound', Hfound1, reach_step by done. tauto.
  - exists found1. split; [done|]. intros word.
    rewrite Hfound1, reach_step by done.
    split; [tauto|]. intros [?|[?|(move & Hmove & Hreach)]]; [tauto..|].
    apply andb_false_iff in Hgo as [->|Hnil].
    + by eapply reach_pruned in Hreach; [|done|by apply Hprune].
    + apply bool_decide_eq_false in Hnil. apply dec_stable in Hnil.
      rewrite Hnil in Hmove. by apply elem_of_nil in Hmove.
Qed.

Lemma reach_start word :
  (∃ i, i ∈ seqZ 0 16 ∧ reach lines board ([] ++ [i]) word) ↔
  word ∈ words ∧ traceable table_adjacent board word.
Proof.
  split.
  - intros (i & _ & Hw & ext & Hext & Hsp). split; [done|]. by eexists.
  - intros [Hw (path & Hpath & Hsp)]. destruct path as [|i ext].
    { by destruct Hpath as [? _]. }
    exists i. split.
    + destruct Hpath as (_ & Hrange & _). apply Forall_cons in Hrange as [Hi _].
      apply elem_of_seqZ. lia.
    + split; [done|]. by exists ext.
Qed.

Lemma search_all_spec :
  ∃ found_words,
    search_all iter_moves table board valid_words ∅ = Ret found_words
    ∧ ∀ word, word ∈ found_words ↔
              word ∈ words ∧ traceable table_adjacent board word.
Proof.
  unfold search_all.
  assert (∀ l (found : gset string),
    (∀ i, i ∈ l → 0 ≤ i ≤ 15) →
    ∃ found',
      for_each (λ found_words i,
                  _find_words iter_moves table board valid_words search_depth i
                              (replicate 16 false) [] found_words) l found
      = Ret found'
      ∧ ∀ word, word ∈ found' ↔
                word ∈ found ∨ ∃ i, i ∈ l ∧ reach lines board ([] ++ [i]) word)
    as Hloop.
  { induction l as [|i l IHl]; intros found Hl; cbn [for_each].
    - exists found. split; [done|]. intros word. split; [by left|].
      intros [?|(? & ?%elem_of_nil & _)]; done.
    - destruct (find_words_spec search_depth i (replicate 16 false) [] found)
        as (found1 & -> & Hfound1).
      + assert (0 ≤ i ≤ 15) by (apply Hl; by left).
        split; [done|]. split; [by apply Forall_singleton|].
        split; [apply NoDup_singleton|done].
      + apply marks_start.
      + unfold search_depth. simpl. lia.
      + res_simpl. destruct (IHl found1) as (found2 & -> & Hfound2).
        { intros j Hj. apply Hl. by right. }
        exists found2. split; [done|]. intros word.
        rewrite Hfound2, Hfound1. setoid_rewrite elem_of_cons. split.
        * intros [[?|?]|(j & ? & ?)];
            [by left|right; exists i; split; [by left|done]
            |right; exists j; split; [by right|done]].
        * intros [?|(j & [->|?] & ?)];
            [by left; left|by left; right|right; by exists j]. }
  destruct (Hloop (seqZ 0 16) ∅) as (found & Hrun & Hfound).
  { intros i Hi%elem_of_seqZ. lia. }
  exists found. split; [done|]. intros word.
  rewrite Hfound, reach_start. split; [|by right].
  by intros [?%not_elem_of_empty|?].
Qed.
End search_correct.

(** ** [_load_board] leaves a validated board *)

Lemma rev_app_chars c s1 s2 :
  c ∈ str_chars (String.rev_app s1 s2) ↔ c ∈ str_chars s1 ∨ c ∈ str_chars s2.
Proof.
  revert s2. induction s1 as [|a s1 IH]; intros s2; simpl.
  - split; [by right|]. by intros [?%elem_of_nil|?].
  - rewrite IH. simpl. rewrite !elem_of_cons. tauto.
Qed.

Lemma str_join_app l1 l2 : str_join (l1 ++ l2) = str_join l1 +:+ str_join l2.
Proof.
  induction l1 as [|s l1 IH]; [done|].
  simpl. unfold str_join in *. simpl. by rewrite IH, str_app_assoc.
Qed.

Lemma words_go_chars c s : ∀ cur,
  c ∈ str_chars (str_join (String.words_go cur s)) →
  c ∈ str_chars (default "" cur) ∨ c ∈ str_chars s.
Proof.
  assert (∀ cur, c ∈ str_chars (str_join (option_list (String.rev <$> cur))) →
                 c ∈ str_chars (default "" cur)) as Hcur.
  { intros [w|]; simpl; [|done]. unfold str_join. simpl.
    rewrite str_app_nil_r. unfold String.rev. rewrite rev_app_chars.
    by intros [?|?%elem_of_nil]. }
  induction s as [|a s IH]; intros cur; simpl.
  - intros Hin. left. by apply Hcur.
  - destruct (Ascii.is_space a).
    + rewrite str_join_app, str_chars_app, elem_of_app.
      intros [Hin|Hin]; [left; by apply Hcur|].
      apply IH in Hin as [Hin|Hin]; [by apply elem_of_nil in Hin|].
      right. by right.
    + intros Hin. apply IH in Hin as [Hin|Hin]; [|right; by right].
      destruct cur as [w|]; simpl in Hin.
      * apply elem_of_cons in Hin as [->|Hin]; [right; by left|by left].
      * apply list_elem_of_singleton in Hin as ->. right. by left.
Qed.

Lemma str_lower_chars s : str_chars (str_lower s) = ascii_lower <$> str_chars s.
Proof. induction s as [|a s IH]; simpl; [done|]. by rewrite IH. Qed.

Lemma alpha_lower_is_lower c : is_alpha (ascii_lower c) = true → is_lower (ascii_lower c) = true.
Proof. by destruct c as [[] [] [] [] [] [] [] []]; vm_compute. Qed.

Lemma str_isalpha_chars s : str_isalpha s = true → Forall (λ c, is_alpha c = true) (str_chars s).
Proof.
  destruct s as [|a s]; [done|]. unfold str_isalpha.
  intros Hall. apply Forall_forall. intros c Hc%list_elem_of_In.
  by eapply forallb_forall in Hall.
Qed.

Lemma load_board_valid text board : _load_board text = Ret board → valid_board board.
Proof.
  unfold _load_board.
  destruct ((len (str_join (String.words (str_lower text))) =? 16)
            && str_isalpha (str_join (String.words (str_lower text)))) eqn:Hok;
    [|done].
  intros [= <-]. apply andb_true_iff in Hok as [Hlen Halpha].
  split; [unfold len in Hlen; lia|].
  apply str_isalpha_chars in Halpha. rewrite Forall_forall in Halpha.
  apply Forall_forall. intros c Hc. pose proof (Halpha _ Hc) as Hac.
  apply words_go_chars in Hc as [Hc|Hc]; [by apply elem_of_nil in Hc|].
  rewrite str_lower_chars in Hc. apply list_elem_of_fmap in Hc as (d & -> & _).
  by apply alpha_lower_is_lower.
Qed.

(** ** The whole run *)

Section run.
Context (iter_moves : gset Z → list Z) (iter_words : gset string → list string).
Context (iter_moves_perm : ∀ moves, iter_moves moves ≡ₚ elements moves).
Context (iter_words_perm : ∀ found, iter_words found ≡ₚ elements found).
Context (cache : gmap Z (gset Z)) (lines : list string) (text board : string).
Context (Htext : _load_board text = Ret board).

(** Once the board is loaded and the index is built, the run returns the
    sorted list of the dictionary words that can be traced. *)
Lemma BoggleBoard_spec valid_words :
  _load_dictionary lines board = Ret valid_words →
  ∃ found_words : gset string,
    BoggleBoard iter_moves iter_words cache lines text
    = Ret (merge_sort String.le (iter_words found_words))
    ∧ ∀ word, word ∈ found_words ↔
              word ∈ unsorted_valid_words lines board
              ∧ traceable table_adjacent board word.
Proof.
  intros Hload. pose proof (load_board_valid _ _ Htext) as Hboard.
  destruct (search_all_spec iter_moves iter_moves_perm cache lines board
              valid_words Hboard Hload) as (found & Hrun & Hfound).
  exists found. split; [|done].
  unfold BoggleBoard, _solve_board. rewrite Htext. res_simpl.
  rewrite Hload. res_simpl. by rewrite Hrun.
Qed.

Lemma BoggleBoard_out valid_words out_words :
  _load_dictionary lines board = Ret valid_words →
  BoggleBoard iter_moves iter_words cache lines text = Ret out_words →
  Sorted String.le out_words ∧ NoDup out_words
  ∧ ∀ word, word ∈ out_words ↔
            word ∈ unsorted_valid_words lines board
            ∧ traceable table_adjacent board word.
Proof.
  intros Hload Hrun.
  destruct (BoggleBoard_spec _ Hload) as (found & Hrun' & Hfound).
  rewrite Hrun' in Hrun. injection Hrun as <-.
  split; [apply Sorted_merge_sort; apply _|]. split.
  - rewrite merge_sort_Permutation, iter_words_perm. apply NoDup_elements.
  - intros word. by rewrite merge_sort_Permutation, iter_words_perm,
      elem_of_elements.
Qed.

Lemma BoggleBoard_lowercase :
  lowercase_dictionary lines →
  ∃ valid_words out_words,
    _load_dictionary lines board = Ret valid_words
    ∧ BoggleBoard iter_moves iter_words cache lines text = Ret out_words.
Proof.
  intros Hlow.
  destruct (load_dictionary_lowercase lines board Hlow) as (valid_words & Hload).
  destruct (BoggleBoard_spec _ Hload) as (found & Hrun & _). eauto.
Qed.

Lemma BoggleBoard_Ret_load out_words :
  BoggleBoard iter_moves iter_words cache lines text = Ret out_words →
  ∃ valid_words, _load_dictionary lines board = Ret valid_words.
Proof.
  unfold BoggleBoard. rewrite Htext. res_simpl.
  destruct (_load_dictionary lines board); [eauto|done..].
Qed.
End run.

(** ** Soundness and completeness of the solve *)

Lemma king_simple_path path :
  simple_path king_neighbor path → simple_path table_adjacent path.
Proof.
  intros (Hne & Hrange & Hnd & Hlinked). split; [done|]. split; [done|].
  split; [done|]. clear Hne Hnd.
  induction path as [|a path IH]; [done|].
  destruct path as [|b path]; [done|].
  apply Forall_cons in Hrange as [Ha Hrange]. destruct Hlinked as [Hab Hrest].
  split; [by apply table_adjacent_king|]. by apply IH.
Qed.

(** C1: for a validated board and a dictionary of lowercase words the run
    returns, and every word it outputs is an entry of the filtered
    dictionary and is spelled, 'q' cells giving "qu", by a path that repeats
    no cell and moves between cells adjacent in the table of moves. *)
Theorem solve_sound (iter_moves : gset Z → list Z)
    (iter_words : gset string → list string) (cache : gmap Z (gset Z))
    (lines : list string) (text board : string) :
  (∀ moves, iter_moves moves ≡ₚ elements moves) →
  (∀ found, iter_words found ≡ₚ elements found) →
  _load_board text = Ret board →
  lowercase_dictionary lines →
  ∃ out_words,
    BoggleBoard iter_moves iter_words cache lines text = Ret out_words
    ∧ ∀ word, word ∈ out_words →
        word ∈ unsorted_valid_words lines board
        ∧ word ∈ str_strip <$> lines
        ∧ ∃ path, path ≠ [] ∧ Forall (λ pos, 0 ≤ pos ≤ 15) path ∧ NoDup path
                  ∧ linked table_adjacent path
                  ∧ spelled board path = word.
Proof.
  intros Hmoves Hwords Htext Hlow.
  destruct (BoggleBoard_lowercase iter_moves iter_words Hmoves cache lines text
              board Htext Hlow) as (valid_words & out_words & Hload & Hrun).
  exists out_words. split; [done|]. intros word Hin.
  destruct (BoggleBoard_out iter_moves iter_words Hmoves Hwords cache lines text
              board Htext valid_words out_words Hload Hrun) as (_ & _ & Hout).
  apply Hout in Hin as [Hw (path & (? & ? & ? & ?) & Hsp)].
  split; [done|]. split.
  - by apply elem_of_unsorted_valid_words in Hw as [? _].
  - by exists path.
Qed.

Lemma solve_sound_witness :
  ∃ out_words,
    BoggleBoard elements elements ∅ ["via"; "quiz"; "vivid"] "VVVV VVIA VVVV VVVQ"
    = Ret out_words
    ∧ ∀ word, word ∈ out_words →
        word ∈ unsorted_valid_words ["via"; "quiz"; "vivid"] "vvvvvviavvvvvvvq"
        ∧ word ∈ str_strip <$> ["via"; "quiz"; "vivid"]
        ∧ ∃ path, path ≠ [] ∧ Forall (λ pos, 0 ≤ pos ≤ 15) path ∧ NoDup path
                  ∧ linked table_adjacent path
                  ∧ spelled "vvvvvviavvvvvvvq" path = word.
Proof.
  apply (solve_sound elements elements ∅ ["via"; "quiz"; "vivid"]
           "VVVV VVIA VVVV VVVQ" "vvvvvviavvvvvvvq").
  - intros moves. reflexivity.
  - intros found. reflexivity.
  - vm_compute. reflexivity.
  - unfold lowercase_dictionary, lowercase_word. compute_done.
Defined.

(** C2: for a validated board and a dictionary of lowercase words the run
    returns, and every entry of the filtered dictionary that some simple path
    of king-move adjacent cells spells, 'q' cells giving "qu", is in the
    output; a filtered word that is not in the output is spelled by no such
    path. *)
Theorem solve_complete (iter_moves : gset Z → list Z)
    (iter_words : gset string → list string) (cache : gmap Z (gset Z))
    (lines : list string) (text board : string) :
  (∀ moves, iter_moves moves ≡ₚ elements moves) →
  (∀ found, iter_words found ≡ₚ elements found) →
  _load_board text = Ret board →
  lowercase_dictionary lines →
  ∃ out_words,
    BoggleBoard iter_moves iter_words cache lines text = Ret out_words
    ∧ (∀ word, word ∈ unsorted_valid_words lines board →
               traceable king_neighbor board word → word ∈ out_words)
    ∧ (∀ word, word ∈ unsorted_valid_words lines board → word ∉ out_words →
               ¬ traceable king_neighbor board word
               ∧ ¬ traceable table_adjacent board word).
Proof.
  intros Hmoves Hwords Htext Hlow.
  destruct (BoggleBoard_lowercase iter_moves iter_words Hmoves cache lines text
              board Htext Hlow) as (valid_words & out_words & Hload & Hrun).
  exists out_words. split; [done|].
  destruct (BoggleBoard_out iter_moves iter_words Hmoves Hwords cache lines text
              board Htext valid_words out_words Hload Hrun) as (_ & _ & Hout).
  assert (∀ word, traceable king_neighbor board word →
                  traceable table_adjacent board word) as Hking.
  { intros word (path & Hpath & Hsp). exists path.
    split; [by apply king_simple_path|done]. }
  split.
  - intros word Hw Htr. apply Hout. split; [done|by apply Hking].
  - intros word Hw Hnot. split.
    + intros Htr. apply Hnot, Hout. split; [done|by apply Hking].
    + intros Htr. by apply Hnot, Hout.
Qed.

Lemma solve_complete_witness :
  ∃ out_words,
    BoggleBoard elements elements ∅ ["via"; "quiz"; "vivid"] "VVVV VVIA VVVV VVVQ"
    = Ret out_words
    ∧ (∀ word, word ∈ unsorted_valid_words ["via"; "quiz"; "vivid"] "vvvvvviavvvvvvvq" →
               traceable king_neighbor "vvvvvviavvvvvvvq" word → word ∈ out_words)
    ∧ (∀ word, word ∈ unsorted_valid_words ["via"; "quiz"; "vivid"] "vvvvvviavvvvvvvq" →
               word ∉ out_words →
               ¬ traceable king_neighbor "vvvvvviavvvvvvvq" word
               ∧ ¬ traceable table_adjacent "vvvvvviavvvvvvvq" word).
Proof.
  apply (solve_complete elements elements ∅ ["via"; "quiz"; "vivid"]
           "VVVV VVIA VVVV VVVQ" "vvvvvviavvvvvvvq").
  - intros moves. reflexivity.
  - intros found. reflexivity.
  - vm_compute. reflexivity.
  - unfold lowercase_dictionary, lowercase_word. compute_done.
Defined.

(** ** The order of the output *)

Lemma StronglySorted_strict {A : Type} (R : relation A) `{!AntiSymm (=) R} (l : list A) :
  StronglySorted R l → NoDup l → StronglySorted (strict R) l.
Proof.
  induction 1 as [|x l Hl IH Hx]; intros Hnd; [constructor|].
  apply NoDup_cons in Hnd as [Hnotin Hnd]. constructor; [by apply IH|].
  rewrite Forall_forall in Hx. apply Forall_forall. intros y Hy.
  split; [by apply Hx|]. intros Hyx.
  assert (x = y) as -> by (apply (anti_symm R); [by apply Hx|done]). done.
Qed.

(** C6: the list a run outputs is strictly increasing in the lexicographic
    order of the character codes, so it has no duplicate; the run returns
    for every validated board and dictionary of lowercase words; the order
    puts the letters a to z in alphabetical order. *)
Theorem output_strictly_sorted (iter_moves : gset Z → list Z)
    (iter_words : gset string → list string) (cache : gmap Z (gset Z))
    (lines : list string) (text board : string) :
  (∀ moves, iter_moves moves ≡ₚ elements moves) →
  (∀ found, iter_words found ≡ₚ elements found) →
  _load_board text = Ret board →
  (lowercase_dictionary lines →
   ∃ out_words, BoggleBoard iter_moves iter_words cache lines text = Ret out_words)
  ∧ (∀ out_words,
       BoggleBoard iter_moves iter_words cache lines text = Ret out_words →
       StronglySorted (strict String.le) out_words ∧ NoDup out_words)
  ∧ StronglySorted (strict String.le) ((λ c, String c "") <$> str_chars alphabet).
Proof.
  intros Hmoves Hwords Htext. split; [|split].
  - intros Hlow.
    destruct (BoggleBoard_lowercase iter_moves iter_words Hmoves cache lines text
                board Htext Hlow) as (valid_words & out_words & _ & Hrun).
    by exists out_words.
  - intros out_words Hrun.
    destruct (BoggleBoard_Ret_load iter_moves iter_words cache lines text board
                Htext out_words Hrun) as (valid_words & Hload).
    destruct (BoggleBoard_out iter_moves iter_words Hmoves Hwords cache lines text
                board Htext valid_words out_words Hload Hrun) as (Hsorted & Hnd & _).
    split; [|done]. apply StronglySorted_strict; [apply _| |done].
    apply Sorted_StronglySorted; [apply _|done].
  - compute_done.
Qed.

Lemma output_strictly_sorted_witness :
  StronglySorted (strict String.le) ["quiv"; "via"; "vvv"]
  ∧ NoDup ["quiv"; "via"; "vvv"].
Proof.
  destruct (output_strictly_sorted elements elements ∅
              ["via"; "vvv"; "quiz"; "aqua"; "vivid"; "quiv"] "vvvvvaiq uavvvvvv"
              "vvvvvaiquavvvvvv") as (_ & Hsorted & _).
  - intros moves. reflexivity.
  - intros found. reflexivity.
  - vm_compute. reflexivity.
  - apply Hsorted. vm_compute. reflexivity.
Defined.

(** ** Two runs *)

Lemma merge_sort_iter_words (iter_words1 iter_words2 : gset string → list string)
    (found : gset string) :
  (∀ found, iter_words1 found ≡ₚ elements found) →
  (∀ found, iter_words2 found ≡ₚ elements found) →
  merge_sort String.le (iter_words1 found) = merge_sort String.le (iter_words2 found).
Proof.
  intros H1 H2. apply (Sorted_unique String.le).
  - apply Sorted_merge_sort; apply _.
  - apply Sorted_merge_sort; apply _.
  - by rewrite !merge_sort_Permutation, H1, H2.
Qed.

(** C8: two runs on the same dictionary lines and board text end the same
    way, with the same output list and so the same file text, whatever the
    order in which each run iterates over its sets and whatever the class
    level dict of moves held when each run started. *)
Theorem run_deterministic (iter_moves1 iter_moves2 : gset Z → list Z)
    (iter_words1 iter_words2 : gset string → list string)
    (cache1 cache2 : gmap Z (gset Z)) (lines : list string) (text : string) :
  (∀ moves, iter_moves1 moves ≡ₚ elements moves) →
  (∀ found, iter_words1 found ≡ₚ elements found) →
  (∀ moves, iter_moves2 moves ≡ₚ elements moves) →
  (∀ found, iter_words2 found ≡ₚ elements found) →
  BoggleBoard iter_moves1 iter_words1 cache1 lines text
  = BoggleBoard iter_moves2 iter_words2 cache2 lines text
  ∧ ∀ out_words1 out_words2,
      BoggleBoard iter_moves1 iter_words1 cache1 lines text = Ret out_words1 →
      BoggleBoard iter_moves2 iter_words2
                  (_build_possible_index_moves cache1) lines text = Ret out_words2 →
      file_text out_words1 = file_text out_words2.
Proof.
  intros Hm1 Hw1 Hm2 Hw2.
  assert (∀ cache2,
    BoggleBoard iter_moves1 iter_words1 cache1 lines text
    = BoggleBoard iter_moves2 iter_words2 cache2 lines text) as Hsame.
  { clear cache2. intros cache2.
    destruct (_load_board text) as [board| |] eqn:Htext.
    - destruct (_load_dictionary lines board) as [valid_words| |] eqn:Hload.
      + destruct (BoggleBoard_spec iter_moves1 iter_words1 Hm1 cache1 lines text
                    board Htext valid_words Hload) as (found1 & -> & Hfound1).
        destruct (BoggleBoard_spec iter_moves2 iter_words2 Hm2 cache2 lines text
                    board Htext valid_words Hload) as (found2 & -> & Hfound2).
        assert (found1 = found2) as ->.
        { apply set_eq. intros word. by rewrite Hfound1, Hfound2. }
        f_equal. by apply merge_sort_iter_words.
      + unfold BoggleBoard. rewrite Htext. res_simpl. by rewrite Hload.
      + unfold BoggleBoard. rewrite Htext. res_simpl. by rewrite Hload.
    - unfold BoggleBoard. by rewrite Htext.
    - unfold BoggleBoard. by rewrite Htext. }
  split; [apply Hsame|]. intros out1 out2 Hrun1 Hrun2.
  rewrite (Hsame (_build_possible_index_moves cache1)) in Hrun1. congruence.
Qed.

Lemma run_deterministic_witness :
  BoggleBoard elements elements ∅ ["via"; "vvv"] "vvvvvviavvvvvvvq"
  = BoggleBoard (λ moves, reverse (elements moves))
                (λ found, reverse (elements found))
                (_build_possible_index_moves ∅) ["via"; "vvv"] "vvvvvviavvvvvvvq".
Proof.
  apply (run_deterministic elements (λ moves, reverse (elements moves))
           elements (λ found, reverse (elements found)) ∅
           (_build_possible_index_moves ∅) ["via"; "vvv"] "vvvvvviavvvvvvvq").
  - intros moves. reflexivity.
  - intros found. reflexivity.
  - intros moves. apply reverse_Permutation.
  - intros found. apply reverse_Permutation.
Defined.

(** ** The keys of the index *)

(** C10: for a validated board and a dictionary of lowercase words the
    index is built without a missing key; for every path of at least two
    cells the accumulated string has a first and a second character, both
    keys of the nested index, so the bucket lookup returns; and the whole
    run returns. *)
Theorem bucket_lookups_safe (iter_moves : gset Z → list Z)
    (iter_words : gset string → list string) (cache : gmap Z (gset Z))
    (lines : list string) (text board : string) :
  (∀ moves, iter_moves moves ≡ₚ elements moves) →
  _load_board text = Ret board →
  lowercase_dictionary lines →
  ∃ valid_words,
    _load_dictionary lines board = Ret valid_words
    ∧ (∀ cur_path,
         Forall (λ pos, 0 ≤ pos ≤ 15) cur_path → (2 ≤ length cur_path)%nat →
         ∃ cur_word c0 c1 bucket_row bucket,
           build_cur_word board cur_path = Ret cur_word
           ∧ str_index cur_word 0 = Ret c0 ∧ str_index cur_word 1 = Ret c1
           ∧ valid_words !! c0 = Some bucket_row ∧ bucket_row !! c1 = Some bucket
           ∧ word_bucket valid_words cur_word = Ret bucket)
    ∧ (∀ cur_path, Exists (λ pos, String.get (Z.to_nat pos) board = Some "q"%char)
                          cur_path →
                   Forall (λ pos, 0 ≤ pos ≤ 15) cur_path →
                   is_Some (valid_words !! "u"%char))
    ∧ ∃ out_words,
        BoggleBoard iter_moves iter_words cache lines text = Ret out_words.
Proof.
  intros Hmoves Htext Hlow. pose proof (load_board_valid _ _ Htext) as Hboard.
  destruct (BoggleBoard_lowercase iter_moves iter_words Hmoves cache lines text
              board Htext Hlow) as (valid_words & out_words & Hload & Hrun).
  exists valid_words. split; [done|]. split; [|split; [|by exists out_words]].
  - intros cur_path Hrange Hlen.
    destruct (word_bucket_spelled lines board valid_words Hboard Hload cur_path
                Hrange Hlen) as (c0 & c1 & Hst & Hbucket).
    destruct (starts_with_str_index _ _ _ Hst) as [H0 H1].
    pose proof Hbucket as Hlook. unfold word_bucket in Hlook.
    rewrite H0 in Hlook. res_simpl.
    apply res_bind_Ret in Hlook as (bucket_row & Hrow%dict_index_Ret & Hlook).
    rewrite H1 in Hlook. res_simpl. apply dict_index_Ret in Hlook.
    eexists (spelled board cur_path), c0, c1, bucket_row, _.
    split; [by apply build_cur_word_spelled|]. done.
  - intros cur_path Hq Hrange.
    destruct (load_dictionary_Ret _ _ _ Hload) as [Hidx _].
    assert ("u"%char ∈ present_letters_of board) as Hu.
    { apply elem_of_present_letters. split; [apply u_in_alphabet|]. right.
      split; [done|]. apply Exists_exists in Hq as (pos & _ & Hget).
      rewrite str_get_chars in Hget. apply str_contains_chars.
      by eapply list_elem_of_lookup_2. }
    specialize (Hidx "u"%char "u"%char). rewrite decide_True in Hidx by done.
    apply bucket_of_lookup in Hidx as (bucket_row & Hrow & _). by exists bucket_row.
Qed.

Lemma bucket_lookups_safe_witness :
  ∃ valid_words,
    _load_dictionary ["via"; "quiz"] "vvvvvviavvvvvvvq" = Ret valid_words
    ∧ is_Some (valid_words !! "u"%char).
Proof.
  destruct (bucket_lookups_safe elements elements ∅ ["via"; "quiz"]
              "vvvvvviavvvvvvvq" "vvvvvviavvvvvvvq")
    as (valid_words & Hload & _ & Hu & _).
  - intros moves. reflexivity.
  - vm_compute. reflexivity.
  - unfold lowercase_dictionary, lowercase_word. compute_done.
  - exists valid_words. split; [exact Hload|].
    apply (Hu [15]); [|repeat constructor; lia].
    left. vm_compute. reflexivity.
Defined.

(** ** Termination *)

Lemma bind_fuel {A B : Type} (m : res A) (f : A → res B) :
  m ≠ OutOfFuel → (∀ a, m = Ret a → f a ≠ OutOfFuel) → m ≫= f ≠ OutOfFuel.
Proof. destruct m; res_simpl; [by eauto|done..]. Qed.

Lemma str_index_fuel s i : str_index s i ≠ OutOfFuel.
Proof. unfold str_index. repeat case_match; done. Qed.

Lemma dict_index_fuel `{Countable K} {V : Type} (d : gmap K V) k :
  dict_index d k ≠ OutOfFuel.
Proof. unfold dict_index. by case_match. Qed.

Lemma for_each_fuel {A S : Type} (body : S → A → res S) l : ∀ acc,
  (∀ acc x, x ∈ l → body acc x ≠ OutOfFuel) → for_each body l acc ≠ OutOfFuel.
Proof.
  induction l as [|x l IH]; intros acc Hbody; cbn [for_each]; [done|].
  apply bind_fuel; [apply Hbody; by left|]. intros acc' _. apply IH.
  intros acc'' y Hy. apply Hbody. by right.
Qed.

Lemma word_bucket_fuel valid_words cur_word :
  word_bucket valid_words cur_word ≠ OutOfFuel.
Proof.
  unfold word_bucket.
  repeat (apply bind_fuel; [first [apply str_index_fuel|apply dict_index_fuel]|intros ? _]).
  apply dict_index_fuel.
Qed.

Lemma score_path_fuel board valid_words cur_path found_words :
  score_path board valid_words cur_path found_words ≠ OutOfFuel.
Proof.
  unfold score_path. case_bool_decide; [done|].
  apply bind_fuel.
  { unfold build_cur_word. apply for_each_fuel. intros acc pos _.
    unfold spell_step.
    repeat (apply bind_fuel; [apply str_index_fuel|intros ? _]). done. }
  intros cur_word _. apply bind_fuel; [apply word_bucket_fuel|].
  intros bucket _. case_match; [|done].
  apply bind_fuel; [apply word_bucket_fuel|]. done.
Qed.

Section termination.
Context (iter_moves : gset Z → list Z).
Context (iter_moves_perm : ∀ moves, iter_moves moves ≡ₚ elements moves).
Context (cache : gmap Z (gset Z)) (board : string).
Context (valid_words : gmap ascii (gmap ascii (list string))).

Local Abbreviation table := (_build_possible_index_moves cache).

Lemma open_moves_elem path index move :
  move ∈ open_moves iter_moves path index →
  0 ≤ index + move ≤ 15 ∧ (index + move ∉ path ++ [index])
  ∧ table_adjacent index (index + move).
Proof using iter_moves_perm.
  intros [Hnew Hmove]%list_elem_of_filter.
  rewrite iter_moves_perm, elem_of_elements in Hmove.
  split; [by apply get_moves_elem in Hmove as [_ ?]|]. split; [done|].
  unfold table_adjacent. by replace (index + move - index) with move by lia.
Qed.

Lemma open_moves_length path index :
  (length (open_moves iter_moves path index) ≤ 8)%nat.
Proof using iter_moves_perm.
  unfold open_moves. etrans; [apply length_filter|].
  rewrite iter_moves_perm.
  assert (elements (_get_possible_index_moves index) ⊆+ possible_moves) as Hsub.
  { apply NoDup_submseteq; [apply NoDup_elements|].
    intros move Hmove%elem_of_elements. by apply get_moves_elem in Hmove as [? _]. }
  by apply submseteq_length in Hsub.
Qed.

Lemma available_moves_open used_letter path index :
  0 ≤ index ≤ 15 → marks used_letter (path ++ [index]) →
  comprehension_if
    (λ move, used ← list_index used_letter (index + move); mret (negb used))
    (iter_moves (_get_possible_index_moves index))
  = Ret (open_moves iter_moves path index).
Proof using iter_moves_perm.
  intros Hindex Hmarks. apply available_moves_filter; [done|].
  apply Forall_forall. intros move Hmove.
  rewrite iter_moves_perm, elem_of_elements in Hmove.
  by apply get_moves_elem in Hmove as [_ ?].
Qed.

Lemma find_words_fuel fuel : ∀ index used_letter_arg cur_path_arg found_words,
  simple_path table_adjacent (cur_path_arg ++ [index]) →
  marks used_letter_arg cur_path_arg →
  (16 ≤ fuel + length cur_path_arg)%nat →
  _find_words iter_moves table board valid_words fuel index used_letter_arg
              cur_path_arg found_words ≠ OutOfFuel.
Proof using iter_moves_perm.
  induction fuel as [|fuel IH];
    intros index used_letter_arg cur_path_arg found_words Hsimple Hmarks Hfuel.
  { apply simple_path_length in Hsimple. rewrite length_app in Hsimple.
    simpl in *. lia. }
  pose proof Hsimple as (Hne & Hrange & Hnd & Hlinked).
  assert (0 ≤ index ≤ 15) as Hindex.
  { rewrite Forall_app, Forall_singleton in Hrange. tauto. }
  cbn [_find_words].
  destruct (marks_setitem _ _ _ Hmarks Hindex) as [-> Hmarks']. res_simpl.
  unfold dict_index at 1. rewrite build_possible_index_moves_lookup by done.
  res_simpl. rewrite (available_moves_open _ _ _ Hindex Hmarks'). res_simpl.
  apply bind_fuel; [apply score_path_fuel|].
  intros [is_word_start found1] _. case_match; [|done].
  apply for_each_fuel. intros found move Hmove. apply IH.
  - by apply (open_moves_simple_path iter_moves iter_moves_perm).
  - done.
  - rewrite length_app. simpl. lia.
Qed.

Lemma search_all_fuel found_words :
  search_all iter_moves table board valid_words found_words ≠ OutOfFuel.
Proof using iter_moves_perm.
  unfold search_all. apply for_each_fuel. intros found i Hi%elem_of_seqZ.
  apply find_words_fuel.
  - split; [done|]. split; [apply Forall_singleton; lia|].
    split; [apply NoDup_singleton|done].
  - apply marks_start.
  - unfold search_depth. simpl. lia.
Qed.
End termination.

Lemma find_words_step (iter_moves : gset Z → list Z) (cache : gmap Z (gset Z))
    (board : string) (valid_words : gmap ascii (gmap ascii (list string)))
    (fuel : nat) (index : Z) (used_letter_arg : list bool) (cur_path_arg : list Z)
    (found_words : gset string) :
  (∀ moves, iter_moves moves ≡ₚ elements moves) →
  simple_path table_adjacent (cur_path_arg ++ [index]) →
  marks used_letter_arg cur_path_arg →
  _find_words iter_moves (_build_possible_index_moves cache) board valid_words
              (S fuel) index used_letter_arg cur_path_arg found_words
  = ('(is_word_start, found_words) ←
       score_path board valid_words (cur_path_arg ++ [index]) found_words;
     if is_word_start
        && bool_decide (open_moves iter_moves cur_path_arg index ≠ [])
     then
       for_each (λ found_words move,
                   _find_words iter_moves (_build_possible_index_moves cache) board
                     valid_words fuel (index + move)
                     (<[Z.to_nat index := true]> used_letter_arg)
                     (cur_path_arg ++ [index]) found_words)
                (open_moves iter_moves cur_path_arg index) found_words
     else mret found_words)
  ∧ used_letter_arg !! Z.to_nat index = Some false
  ∧ marks (<[Z.to_nat index := true]> used_letter_arg) (cur_path_arg ++ [index])
  ∧ (length (open_moves iter_moves cur_path_arg index) ≤ 8)%nat
  ∧ ∀ move, move ∈ open_moves iter_moves cur_path_arg index →
      table_adjacent index (index + move)
      ∧ <[Z.to_nat index := true]> used_letter_arg !! Z.to_nat (index + move)
        = Some false
      ∧ simple_path table_adjacent ((cur_path_arg ++ [index]) ++ [index + move]).
Proof.
  intros Hperm Hsimple Hmarks.
  pose proof Hsimple as (Hne & Hrange & Hnd & Hlinked).
  assert (0 ≤ index ≤ 15) as Hindex.
  { rewrite Forall_app, Forall_singleton in Hrange. tauto. }
  destruct (marks_setitem _ _ _ Hmarks Hindex) as [Hset Hmarks'].
  split; [|split; [|split; [done|split]]].
  - cbn [_find_words]. rewrite Hset. res_simpl.
    unfold dict_index at 1. rewrite build_possible_index_moves_lookup by done.
    res_simpl. rewrite (available_moves_open iter_moves Hperm _ _ _ Hindex Hmarks').
    done.
  - destruct Hmarks as [_ Hlook]. rewrite Hlook by done.
    rewrite bool_decide_eq_false_2; [done|].
    apply NoDup_app in Hnd as (_ & Hdisj & _). intros Hin.
    apply (Hdisj _ Hin). by left.
  - by apply open_moves_length.
  - intros move Hmove.
    destruct (open_moves_elem iter_moves Hperm _ _ _ Hmove) as (Hland & Hnew & Hadj).
    split; [done|]. split; [|by apply (open_moves_simple_path iter_moves Hperm)].
    destruct Hmarks' as [_ Hlook']. rewrite Hlook' by done.
    by rewrite bool_decide_eq_false_2.
Qed.


(** C7: for every board and every index of words, no call of
    [_find_words] made by the search nests deeper than sixteen calls, so the
    search ends, by returning or by raising; a call of [_find_words] on a
    cell the path has not visited marks this cell and calls itself, one
    level deeper, exactly on the moves to cells the table makes adjacent and
    the marked path has not visited, at most eight of them, each on an
    unmarked cell; for a validated board and an index that was built the
    search returns. *)
Theorem search_terminates (iter_moves : gset Z → list Z) (cache : gmap Z (gset Z))
    (board : string) (valid_words : gmap ascii (gmap ascii (list string))) :
  (∀ moves, iter_moves moves ≡ₚ elements moves) →
  (∀ fuel index used_letter_arg cur_path_arg found_words,
     simple_path table_adjacent (cur_path_arg ++ [index]) →
     marks used_letter_arg cur_path_arg →
     (16 ≤ fuel + length cur_path_arg)%nat →
     _find_words iter_moves (_build_possible_index_moves cache) board valid_words
                 fuel index used_letter_arg cur_path_arg found_words ≠ OutOfFuel)
  ∧ (∀ found_words,
       search_all iter_moves (_build_possible_index_moves cache) board valid_words
                  found_words ≠ OutOfFuel)
  ∧ (∀ used_letter_arg cur_path_arg index,
       0 ≤ index ≤ 15 → marks used_letter_arg cur_path_arg →
       ∃ used_letter,
         list_setitem used_letter_arg index true = Ret used_letter
         ∧ marks used_letter (cur_path_arg ++ [index])
         ∧ comprehension_if
             (λ move, used ← list_index used_letter (index + move); mret (negb used))
             (iter_moves (_get_possible_index_moves index))
           = Ret (open_moves iter_moves cur_path_arg index))
  ∧ (∀ cur_path_arg index move,
       move ∈ open_moves iter_moves cur_path_arg index →
       0 ≤ index + move ≤ 15 ∧ (index + move ∉ cur_path_arg ++ [index])
       ∧ table_adjacent index (index + move))
  ∧ (∀ cur_path_arg index,
       (length (open_moves iter_moves cur_path_arg index) ≤ 8)%nat)
  ∧ (∀ lines, valid_board board →
              _load_dictionary lines board = Ret valid_words →
              ∃ found_words,
                search_all iter_moves (_build_possible_index_moves cache) board
                           valid_words ∅ = Ret found_words)
  ∧ (∀ fuel index used_letter_arg cur_path_arg found_words,
       simple_path table_adjacent (cur_path_arg ++ [index]) →
       marks used_letter_arg cur_path_arg →
       _find_words iter_moves (_build_possible_index_moves cache) board valid_words
                   (S fuel) index used_letter_arg cur_path_arg found_words
       = ('(is_word_start, found_words) ←
            score_path board valid_words (cur_path_arg ++ [index]) found_words;
          if is_word_start
             && bool_decide (open_moves iter_moves cur_path_arg index ≠ [])
          then
            for_each (λ found_words move,
                        _find_words iter_moves (_build_possible_index_moves cache)
                          board valid_words fuel (index + move)
                          (<[Z.to_nat index := true]> used_letter_arg)
                          (cur_path_arg ++ [index]) found_words)
                     (open_moves iter_moves cur_path_arg index) found_words
          else mret found_words)
       ∧ used_letter_arg !! Z.to_nat index = Some false
       ∧ marks (<[Z.to_nat index := true]> used_letter_arg) (cur_path_arg ++ [index])
       ∧ (length (open_moves iter_moves cur_path_arg index) ≤ 8)%nat
       ∧ ∀ move, move ∈ open_moves iter_moves cur_path_arg index →
           table_adjacent index (index + move)
           ∧ <[Z.to_nat index := true]> used_letter_arg !! Z.to_nat (index + move)
             = Some false
           ∧ simple_path table_adjacent
               ((cur_path_arg ++ [index]) ++ [index + move])).
Proof.
  intros Hperm. split; [|split; [|split; [|split; [|split; [|split]]]]].
  - intros fuel. by apply find_words_fuel.
  - by apply search_all_fuel.
  - intros used_letter_arg cur_path_arg index Hindex Hmarks.
    destruct (marks_setitem _ _ _ Hmarks Hindex) as [Hset Hmarks'].
    eexists. split; [done|]. split; [done|]. by apply available_moves_open.
  - intros cur_path_arg index move. by apply open_moves_elem.
  - by apply open_moves_length.
  - intros lines Hboard Hload.
    destruct (search_all_spec iter_moves Hperm cache lines board valid_words
                Hboard Hload) as (found & Hrun & _).
    by exists found.
  - intros fuel index used_letter_arg cur_path_arg found_words.
    by apply find_words_step.
Qed.

Lemma search_terminates_witness :
  ∃ valid_words found_words,
    _load_dictionary ["via"; "vvv"; "quiz"] "vvvvvviavvvvvvvq" = Ret valid_words
    ∧ search_all elements (_build_possible_index_moves ∅) "vvvvvviavvvvvvvq"
                 valid_words ∅ = Ret found_words
    ∧ _find_words elements (_build_possible_index_moves ∅) "vvvvvviavvvvvvvq"
                  valid_words 15 6 (<[5%nat := true]> (replicate 16 false)) [5] ∅
      ≠ OutOfFuel
    ∧ marks (<[Z.to_nat 6 := true]> (<[5%nat := true]> (replicate 16 false)))
            ([5] ++ [6])
    ∧ ∀ move, move ∈ open_moves elements [5] 6 →
        <[Z.to_nat 6 := true]> (<[5%nat := true]> (replicate 16 false))
          !! Z.to_nat (6 + move) = Some false.
Proof.
  destruct (load_dictionary_lowercase ["via"; "vvv"; "quiz"] "vvvvvviavvvvvvvq")
    as [valid_words Hload].
  { unfold lowercase_dictionary, lowercase_word. compute_done. }
  destruct (search_terminates elements ∅ "vvvvvviavvvvvvvq" valid_words)
    as (Hfuel & _ & _ & _ & _ & Hreturns & Hstep).
  { intros moves. reflexivity. }
  assert (simple_path table_adjacent ([5] ++ [6])) as Hsimple.
  { split; [discriminate|]. split; [repeat constructor; lia|].
    split; [compute_done|]. split; [|exact I].
    unfold table_adjacent. compute_done. }
  assert (marks (<[5%nat := true]> (replicate 16 false)) [5]) as Hmarks.
  { split; [reflexivity|].
    assert (Forall (λ pos, <[5%nat := true]> (replicate 16 false) !! Z.to_nat pos
                           = Some (bool_decide (pos ∈ [5]))) (seqZ 0 16)) as Hall
      by compute_done.
    rewrite Forall_seqZ in Hall. intros pos Hpos. apply Hall. lia. }
  destruct (Hreturns ["via"; "vvv"; "quiz"]) as [found_words Hrun].
  { split; [reflexivity|]. compute_done. }
  { exact Hload. }
  destruct (Hstep 14%nat 6 _ [5] ∅ Hsimple Hmarks) as (_ & _ & Hmarks' & _ & Hmoves).
  exists valid_words, found_words. split; [exact Hload|]. split; [exact Hrun|].
  split; [|split; [exact Hmarks'|]].
  - apply (Hfuel 15%nat 6 _ [5] ∅ Hsimple Hmarks). simpl. lia.
  - intros move Hmove. by destruct (Hmoves move Hmove) as (_ & ? & _).
Defined.

(** ** The digraph rule *)

Lemma cell_text_q board pos :
  String.get (Z.to_nat pos) board = Some "q"%char → cell_text board pos = "qu".
Proof. intros Hq. unfold cell_text. by rewrite Hq. Qed.

Lemma spelled_count_q board path :
  valid_board board → Forall (λ pos, 0 ≤ pos ≤ 15) path →
  len (spelled board path)
  = Z.of_nat (length path)
    + Z.of_nat (length (filter (λ pos, String.get (Z.to_nat pos) board = Some "q"%char)
                               path)).
Proof.
  intros Hb. induction 1 as [|p path Hp Hpath IH]; [done|].
  rewrite spelled_cons, len_app, IH.
  destruct (cell_text_chars _ _ Hb Hp) as (c & Hget & _ & Hc).
  rewrite (len_chars (cell_text board p)), Hc.
  destruct (decide (c = "q"%char)) as [->|Hne].
  - rewrite filter_cons_True by done. simpl length. lia.
  - rewrite filter_cons_False by congruence. simpl length. lia.
Qed.

(** C5: the string [_find_words] accumulates for a path is the
    concatenation of what the cells give, a cell holding 'q' giving "qu" at
    its place in the string; its length is the length of the path plus the
    number of 'q' cells on it, so it is strictly longer than the path when
    the path visits a 'q' cell; and it is this string that is looked up and
    recorded. *)
Theorem digraph_rule (board : string) (cur_path : list Z) :
  valid_board board →
  Forall (λ pos, 0 ≤ pos ≤ 15) cur_path →
  build_cur_word board cur_path = Ret (spelled board cur_path)
  ∧ (∀ path1 pos path2,
       cur_path = path1 ++ pos :: path2 →
       String.get (Z.to_nat pos) board = Some "q"%char →
       spelled board cur_path
       = spelled board path1 +:+ "qu" +:+ spelled board path2)
  ∧ len (spelled board cur_path)
    = Z.of_nat (length cur_path)
      + Z.of_nat (length (filter (λ pos, String.get (Z.to_nat pos) board
                                         = Some "q"%char) cur_path))
  ∧ (Exists (λ pos, String.get (Z.to_nat pos) board = Some "q"%char) cur_path →
     Z.of_nat (length cur_path) < len (spelled board cur_path))
  ∧ (∀ lines valid_words found_words,
       _load_dictionary lines board = Ret valid_words → cur_path ≠ [] →
       ∃ is_word_start found_words',
         score_path board valid_words cur_path found_words
         = Ret (is_word_start, found_words')
         ∧ ∀ word, word ∈ found_words' ↔
                   word ∈ found_words
                   ∨ (word = spelled board cur_path
                      ∧ word ∈ unsorted_valid_words lines board)).
Proof.
  intros Hboard Hrange. split; [by apply build_cur_word_spelled|].
  split; [|split; [by apply spelled_count_q|split]].
  - intros path1 pos path2 -> Hq.
    by rewrite spelled_app, spelled_cons, (cell_text_q _ _ Hq).
  - intros Hq. rewrite spelled_count_q by done.
    apply Exists_exists in Hq as (pos & Hpos & Hq).
    assert (pos ∈ filter (λ pos, String.get (Z.to_nat pos) board = Some "q"%char)
                         cur_path) as Hin by (by apply list_elem_of_filter).
    destruct (filter _ cur_path); [by apply elem_of_nil in Hin|]. simpl. lia.
  - intros lines valid_words found_words Hload Hne.
    destruct (score_path_spec lines board valid_words Hboard Hload cur_path
                found_words Hne Hrange) as (st & found' & Hrun & Hfound & _).
    by exists st, found'.
Qed.

Lemma digraph_rule_witness :
  build_cur_word "vvvvvaiqvvvvvvvv" [7; 6; 2] = Ret "quiv"
  ∧ Z.of_nat (length [7; 6; 2]) < len (spelled "vvvvvaiqvvvvvvvv" [7; 6; 2]).
Proof.
  destruct (digraph_rule "vvvvvaiqvvvvvvvv" [7; 6; 2]) as (Hword & _ & _ & Hlonger & _).
  - split; [reflexivity|]. compute_done.
  - repeat constructor; lia.
  - split; [exact Hword|]. apply Hlonger. left. reflexivity.
Defined.

(** ** Missing files *)

(** C9: [check_input_args] raises [IOError] exactly when one of the two
    arguments is neither a file nor the name of a file of the data
    directory, the dictionary being checked first; otherwise it returns the
    two resolved paths; and the script calls the constructor only with the
    paths a successful check returned. *)
Theorem check_input_args_spec (isfile : string → bool) (DATA_DIR : string)
    (path_join : string → string → string) (dict_arg board_arg : string) :
  check_input_args isfile DATA_DIR path_join dict_arg board_arg
  = (if negb (found_arg isfile DATA_DIR path_join dict_arg)
     then Raise (IOError "Dictionary file not found.")
     else if negb (found_arg isfile DATA_DIR path_join board_arg)
          then Raise (IOError "Board file not found.")
          else Ret (resolved isfile DATA_DIR path_join dict_arg,
                    resolved isfile DATA_DIR path_join board_arg))
  ∧ ((∃ msg, check_input_args isfile DATA_DIR path_join dict_arg board_arg
             = Raise (IOError msg))
     ↔ found_arg isfile DATA_DIR path_join dict_arg = false
       ∨ found_arg isfile DATA_DIR path_join board_arg = false)
  ∧ (∀ core prog output_arg,
       main isfile DATA_DIR path_join core [prog; dict_arg; board_arg; output_arg]
       = Solved
           (match check_input_args isfile DATA_DIR path_join dict_arg board_arg with
            | Ret (dict_file, board_file) => core dict_file board_file output_arg
            | Raise e => Raise e
            | OutOfFuel => OutOfFuel
            end)).
Proof.
  assert (check_input_args isfile DATA_DIR path_join dict_arg board_arg
          = (if negb (found_arg isfile DATA_DIR path_join dict_arg)
             then Raise (IOError "Dictionary file not found.")
             else if negb (found_arg isfile DATA_DIR path_join board_arg)
                  then Raise (IOError "Board file not found.")
                  else Ret (resolved isfile DATA_DIR path_join dict_arg,
                            resolved isfile DATA_DIR path_join board_arg))) as Heq.
  { unfold check_input_args, found_arg, resolved, py_assert, except_AssertionError.
    destruct (isfile dict_arg), (isfile (path_join DATA_DIR dict_arg)),
             (isfile board_arg), (isfile (path_join DATA_DIR board_arg));
      reflexivity. }
  split; [done|]. split.
  - rewrite Heq.
    destruct (found_arg isfile DATA_DIR path_join dict_arg),
             (found_arg isfile DATA_DIR path_join board_arg); simpl;
      naive_solver.
  - intros core prog output_arg. unfold main. f_equal.
Qed.

(** * Further properties *)

(** ** [_load_board] *)

Lemma rev_app_chars_eq s1 s2 :
  str_chars (String.rev_app s1 s2) = reverse (str_chars s1) ++ str_chars s2.
Proof.
  revert s2. induction s1 as [|a s1 IH]; intros s2; simpl; [done|].
  rewrite IH. simpl. by rewrite reverse_cons, <-app_assoc.
Qed.

Lemma words_go_chars_eq s : ∀ cur,
  str_chars (str_join (String.words_go cur s))
  = reverse (str_chars (default "" cur))
    ++ filter (λ c, Ascii.is_space c = false) (str_chars s).
Proof.
  assert (∀ cur, str_chars (str_join (option_list (String.rev <$> cur)))
                 = reverse (str_chars (default "" cur))) as Hcur.
  { intros [w|]; simpl; [|done]. unfold str_join. simpl.
    rewrite str_app_nil_r. unfold String.rev.
    by rewrite rev_app_chars_eq, app_nil_r. }
  induction s as [|a s IH]; intros cur; simpl.
  - by rewrite Hcur, app_nil_r.
  - destruct (Ascii.is_space a) eqn:Ha.
    + rewrite str_join_app, str_chars_app, Hcur, IH.
      by rewrite filter_cons_False by congruence.
    + rewrite IH, filter_cons_True by done.
      destruct cur as [w|]; simpl.
      * by rewrite reverse_cons, <-app_assoc.
      * done.
Qed.

Lemma join_words_normal_form text :
  str_join (String.words (str_lower text)) = normal_form text.
Proof.
  apply str_chars_inj. unfold String.words, normal_form.
  rewrite words_go_chars_eq, str_lower_chars. simpl.
  unfold str_chars at 3. by rewrite String.list_ascii_of_string_of_list_ascii.
Qed.

Lemma normal_form_chars text :
  str_chars (normal_form text)
  = filter (λ c, Ascii.is_space c = false) (ascii_lower <$> str_chars text).
Proof.
  unfold normal_form, str_chars at 1.
  by rewrite String.list_ascii_of_string_of_list_ascii.
Qed.

Lemma ascii_lower_space c : Ascii.is_space (ascii_lower c) = Ascii.is_space c.
Proof. by destruct c as [[] [] [] [] [] [] [] []]. Qed.

Lemma ascii_lower_alpha c : is_lower (ascii_lower c) = is_alpha c.
Proof. by destruct c as [[] [] [] [] [] [] [] []]. Qed.

Lemma is_lower_fixed c : is_lower c = true → ascii_lower c = c ∧ Ascii.is_space c = false.
Proof. by destruct c as [[] [] [] [] [] [] [] []]. Qed.

Lemma is_lower_is_alpha c : is_lower c = true → is_alpha c = true.
Proof. unfold is_alpha. intros ->. apply orb_true_r. Qed.

Lemma normal_form_lower_filter text :
  str_chars (normal_form text)
  = ascii_lower <$> filter (λ c, Ascii.is_space c = false) (str_chars text).
Proof.
  rewrite normal_form_chars. induction (str_chars text) as [|c l IH]; [done|].
  rewrite fmap_cons. destruct (Ascii.is_space c) eqn:Hc.
  - rewrite !filter_cons_False; [done|congruence|].
    rewrite ascii_lower_space. congruence.
  - rewrite !filter_cons_True; [|done|by rewrite ascii_lower_space].
    by rewrite fmap_cons, IH.
Qed.

Lemma str_isalpha_forallb s :
  (0 < String.length s)%nat → str_isalpha s = forallb is_alpha (str_chars s).
Proof. destruct s; simpl; [lia|done]. Qed.

(** X1: [_load_board] returns exactly when the characters of the text that
    are not whitespace are sixteen letters, and then the board is these
    letters in lowercase; otherwise it raises [AssertionError]. *)
Theorem load_board_normal_form (text : string) :
  let letters := filter (λ c, Ascii.is_space c = false) (str_chars text) in
  _load_board text
  = if decide (length letters = 16%nat ∧ Forall (λ c, is_alpha c = true) letters)
    then Ret (normal_form text) else Raise AssertionError.
Proof.
  intros letters. unfold _load_board. rewrite join_words_normal_form.
  assert (len (normal_form text) = Z.of_nat (length letters)) as Hlen.
  { by rewrite len_chars, normal_form_lower_filter, length_fmap. }
  rewrite Hlen.
  assert (Forall (λ c, is_alpha c = true) letters ↔
          forallb is_alpha (str_chars (normal_form text)) = true) as Hall.
  { rewrite normal_form_lower_filter. fold letters.
    rewrite forallb_forall, Forall_forall. split.
    - intros Hl c (d & -> & Hd)%list_elem_of_In%list_elem_of_fmap.
      unfold is_alpha. rewrite ascii_lower_alpha, (Hl _ Hd). apply orb_true_r.
    - intros Hl d Hd. rewrite <-ascii_lower_alpha. 
      assert (is_alpha (ascii_lower d) = true) as Ha.
      { apply Hl, list_elem_of_In, list_elem_of_fmap. eauto. }
      revert Ha. by destruct d as [[] [] [] [] [] [] [] []]. }
  case_decide as Hok.
  - destruct Hok as [H16 Hal]. rewrite H16. simpl.
    rewrite str_isalpha_forallb.
    + by rewrite (proj1 Hall Hal).
    + unfold len in Hlen. lia.
  - destruct (Z.of_nat (length letters) =? 16) eqn:H16; [|done]. simpl.
    rewrite str_isalpha_forallb by (unfold len in Hlen; lia).
    destruct (forallb is_alpha (str_chars (normal_form text))) eqn:Hf; [|done].
    destruct Hok. split; [lia|by apply Hall].
Qed.

(** X2: two board texts that differ only in the case of their letters and
    in their whitespace load the same board, and a run ends the same way on
    both. *)
Theorem load_board_case_whitespace (text1 text2 : string) :
  normal_form text1 = normal_form text2 →
  _load_board text1 = _load_board text2
  ∧ ∀ iter_moves iter_words cache lines,
      BoggleBoard iter_moves iter_words cache lines text1
      = BoggleBoard iter_moves iter_words cache lines text2.
Proof.
  intros Hsame.
  assert (_load_board text1 = _load_board text2) as Hload.
  { unfold _load_board. by rewrite !join_words_normal_form, Hsame. }
  split; [done|]. intros iter_moves iter_words cache lines.
  unfold BoggleBoard. by rewrite Hload.
Qed.

Lemma load_board_case_whitespace_witness :
  _load_board "C  U R T
B A	 N  D
A T
 M Z
M X   F
 O
" = _load_board "curtbandatmzmxfo".
Proof.
  apply (load_board_case_whitespace _ "curtbandatmzmxfo"). vm_compute. reflexivity.
Defined.

Lemma valid_board_normal_form board : valid_board board → normal_form board = board.
Proof.
  intros [_ Hlow]. apply str_chars_inj. rewrite normal_form_chars.
  induction Hlow as [|c l Hc Hl IH]; [done|].
  destruct (is_lower_fixed _ Hc) as [Hfix Hsp].
  rewrite fmap_cons, Hfix, filter_cons_True by done. by rewrite IH.
Qed.

(** X3: a board that [_load_board] returned loads to itself. *)
Theorem load_board_idempotent (text board : string) :
  _load_board text = Ret board → _load_board board = Ret board.
Proof.
  intros Hload. pose proof (load_board_valid _ _ Hload) as Hboard.
  pose proof Hboard as [Hlen Hlow].
  unfold _load_board. rewrite join_words_normal_form, valid_board_normal_form by done.
  unfold len. rewrite Hlen. simpl.
  rewrite str_isalpha_forallb by lia.
  assert (forallb is_alpha (str_chars board) = true) as ->; [|done].
  apply forallb_forall. intros c Hc%list_elem_of_In.
  rewrite Forall_forall in Hlow. by apply is_lower_is_alpha, Hlow.
Qed.

Lemma load_board_idempotent_witness :
  _load_board "vvvvvviavvvvvvvq" = Ret "vvvvvviavvvvvvvq".
Proof.
  apply (load_board_idempotent "VVVV VVIA VVVV VVVQ"). vm_compute. reflexivity.
Defined.

(** ** The table of moves, again *)

(** X4: on the board the adjacency of the table is symmetric, and no cell
    is adjacent to itself. *)
Theorem table_adjacent_symmetric (a b : Z) :
  0 ≤ a ≤ 15 → 0 ≤ b ≤ 15 →
  (table_adjacent a b ↔ table_adjacent b a) ∧ ¬ table_adjacent a a.
Proof.
  intros Ha Hb. rewrite !table_adjacent_king by done.
  unfold king_neighbor. split; [|tauto]. lia.
Qed.

Lemma table_adjacent_symmetric_witness :
  (table_adjacent 3 6 ↔ table_adjacent 6 3) ∧ ¬ table_adjacent 3 3.
Proof. apply (table_adjacent_symmetric 3 6); lia. Defined.

Lemma moves_size_check :
  Forall (λ pos, Z.of_nat (size (_get_possible_index_moves pos))
                 = near (row pos) * near (col pos) - 1)
         (seqZ 0 16).
Proof. compute_done. Qed.

(** X5: a cell of the board has as many moves as there are other cells
    within one row and one column of it: 3 in a corner, 5 on an edge, 8
    inside. *)
Theorem moves_size (pos : Z) :
  0 ≤ pos ≤ 15 →
  Z.of_nat (size (_get_possible_index_moves pos)) = near (row pos) * near (col pos) - 1.
Proof.
  intros Hpos. pose proof moves_size_check as Hall.
  rewrite Forall_seqZ in Hall. apply Hall. lia.
Qed.

Lemma moves_size_witness :
  Z.of_nat (size (_get_possible_index_moves 12)) = near (row 12) * near (col 12) - 1.
Proof. apply (moves_size 12). lia. Defined.

(** X6: for every integer index, on the board or not, each move of
    [_get_possible_index_moves] is one of the eight offsets and lands on the
    board; there is no move at all from an index below -5 or above 20. *)
Theorem moves_land_on_board (index : Z) :
  (∀ move, move ∈ _get_possible_index_moves index →
           move ∈ possible_moves ∧ 0 ≤ index + move ≤ 15)
  ∧ (index < -5 ∨ 20 < index → _get_possible_index_moves index = ∅).
Proof.
  split; [apply get_moves_elem|].
  intros Hfar. apply set_eq. intros move. split; [|by intros ?%not_elem_of_empty].
  intros [Hmove Hland]%get_moves_elem. exfalso.
  unfold possible_moves in Hmove. set_unfold. lia.
Qed.

(** X7: [_build_possible_index_moves] sets the entries 0 to 15 of the dict
    to the moves of these indices, leaves every other entry as it was, and
    building twice gives the same dict as building once. *)
Theorem build_possible_index_moves_spec (cache : gmap Z (gset Z)) :
  (∀ i, _build_possible_index_moves cache !! i
        = if decide (0 ≤ i ≤ 15) then Some (_get_possible_index_moves i)
          else cache !! i)
  ∧ _build_possible_index_moves (_build_possible_index_moves cache)
    = _build_possible_index_moves cache.
Proof.
  assert (∀ c i, _build_possible_index_moves c !! i
                 = if decide (0 ≤ i ≤ 15) then Some (_get_possible_index_moves i)
                   else c !! i) as Hlook.
  { intros c i. case_decide as Hi.
    - by apply build_possible_index_moves_lookup.
    - unfold _build_possible_index_moves.
      assert (∀ l (d : gmap Z (gset Z)), i ∉ l →
        foldl (λ d i, <[i := _get_possible_index_moves i]> d) d l !! i = d !! i)
        as Hgen.
      { induction l as [|j l IH]; intros d Hl; cbn [foldl]; [done|].
        rewrite IH by set_solver. apply lookup_insert_ne. set_solver. }
      apply Hgen. rewrite elem_of_seqZ. lia. }
  split; [apply Hlook|]. apply map_eq. intros i. rewrite !Hlook.
  by case_decide.
Qed.

(** ** [_load_dictionary], again *)

Lemma filter_ext_elem {A : Type} (P Q : A → Prop) `{!∀ x, Decision (P x)}
    `{!∀ x, Decision (Q x)} (l : list A) :
  (∀ x, x ∈ l → (P x ↔ Q x)) → filter P l = filter Q l.
Proof.
  induction l as [|x l IH]; intros Hext; [done|].
  rewrite !filter_cons. rewrite IH by (intros y Hy; apply Hext; by right).
  destruct (decide (P x)) as [HP|HP], (decide (Q x)) as [HQ|HQ]; try done.
  - destruct HQ. apply Hext; [by left|done].
  - destruct HP. apply Hext; [by left|done].
Qed.

Lemma unsorted_valid_words_filter lines board :
  unsorted_valid_words lines board
  = filter (passes_filter board) (str_strip <$> lines).
Proof.
  unfold unsorted_valid_words. rewrite read_dict_words_filter, list_filter_filter.
  apply filter_ext_elem. intros word Hin.
  pose proof (elem_of_unsorted_valid_words lines board word) as Hmem.
  unfold unsorted_valid_words in Hmem.
  rewrite read_dict_words_filter, list_filter_filter, list_elem_of_filter in Hmem.
  unfold passes_filter, no_absent_letter in *. rewrite Forall_forall.
  split.
  - intros Hleft. apply Hmem. by split.
  - intros Hright. apply Hmem. by split.
Qed.

(** X8: when [_load_dictionary] returns, looking up a pair of letters that
    both count as present gives the stripped lines of the dictionary that
    pass the filter and start with the pair, in the order of the dictionary
    and as often as they occur there; looking up any other pair raises
    [KeyError]. *)
Theorem index_buckets (lines : list string) (board : string)
    (valid_words : gmap ascii (gmap ascii (list string))) :
  _load_dictionary lines board = Ret valid_words →
  (∀ a b,
     bucket_of valid_words a b
     = if decide ((a ∈ str_chars alphabet ∧ counts_as_present board a)
                  ∧ (b ∈ str_chars alphabet ∧ counts_as_present board b))
       then Ret (filter (starts_with a b)
                        (filter (passes_filter board) (str_strip <$> lines)))
       else Raise KeyError)
  ∧ unsorted_valid_words lines board
    = filter (passes_filter board) (str_strip <$> lines).
Proof.
  intros [Hidx _]%load_dictionary_Ret. split; [|apply unsorted_valid_words_filter].
  intros a b. rewrite Hidx, unsorted_valid_words_filter.
  repeat case_decide; try done; rewrite !elem_of_present_letters in *; tauto.
Qed.

Lemma index_buckets_witness :
  ∃ valid_words,
    _load_dictionary ["via"; "vivid"; "vie"; "ivy"; " via
"] "vvvvvviavvvvvvvq"
    = Ret valid_words
    ∧ bucket_of valid_words "v" "i" = Ret ["via"; "via"]
    ∧ bucket_of valid_words "v" "e" = Raise KeyError.
Proof.
  destruct (load_dictionary_lowercase ["via"; "vivid"; "vie"; "ivy"; " via
"]
              "vvvvvviavvvvvvvq") as [valid_words Hload].
  { unfold lowercase_dictionary, lowercase_word. compute_done. }
  exists valid_words. split; [exact Hload|].
  destruct (index_buckets _ _ _ Hload) as [Hbucket _].
  split; rewrite Hbucket; vm_compute; reflexivity.
Defined.

Lemma append_word_Raise valid_words word e :
  (2 ≤ length (str_chars word))%nat →
  append_word valid_words word = Raise e → e = KeyError.
Proof.
  intros Hlen.
  destruct (str_index_chars word 0) as (c0 & H0 & _); [rewrite len_chars; lia|].
  destruct (str_index_chars word 1) as (c1 & H1 & _); [rewrite len_chars; lia|].
  unfold append_word, dict_index. rewrite H0. res_simpl.
  destruct (valid_words !! c0) as [r|]; res_simpl; [|by intros [= <-]].
  rewrite H1. res_simpl. destruct (r !! c1); res_simpl; [done|by intros [= <-]].
Qed.

Lemma append_word_fuel valid_words word : append_word valid_words word ≠ OutOfFuel.
Proof.
  unfold append_word.
  repeat (apply bind_fuel; [first [apply str_index_fuel|apply dict_index_fuel]|intros ? _]).
  done.
Qed.

Lemma append_words_cases present new_words : ∀ words valid_words,
  index_for present words valid_words →
  Forall (λ word, (2 ≤ length (str_chars word))%nat) new_words →
  (∃ valid_words', for_each append_word new_words valid_words = Ret valid_words')
  ∨ (for_each append_word new_words valid_words = Raise KeyError
     ∧ ∃ word, word ∈ new_words ∧ ¬ keyed present word).
Proof.
  induction new_words as [|w l IH]; intros words valid_words Hidx Hlen;
    cbn [for_each]; [left; eauto|].
  apply Forall_cons in Hlen as [Hw Hl].
  destruct (append_word valid_words w) as [vw1|e|] eqn:Hrun; res_simpl.
  - destruct (append_word_Ret _ _ _ _ _ Hidx Hrun) as [Hidx1 _].
    destruct (IH _ _ Hidx1 Hl) as [?|[? (w' & ? & ?)]]; [by left|].
    right. split; [done|]. exists w'. split; [by right|done].
  - right. pose proof (append_word_Raise _ _ _ Hw Hrun) as ->.
    split; [done|]. exists w. split; [by left|]. intros Hk.
    destruct (append_word_ok _ _ _ _ Hidx Hk) as [? Hok]. congruence.
  - by apply append_word_fuel in Hrun.
Qed.

(** X9: [_load_dictionary] raises [AssertionError] when [dict_file] is not
    a file, and the exception of the opening or reading when that raises;
    once the lines are read it either returns or raises [KeyError], and it
    raises [KeyError] exactly when some word that passed the filter does not
    start with two letters that count as present, as a word with a capital
    or a digit in front does. *)
Theorem load_dictionary_KeyError (isfile : string → bool)
    (open_lines : string → res (list string)) (dict_file board : string) :
  (isfile dict_file = false →
   load_dictionary_file isfile open_lines dict_file board = Raise AssertionError)
  ∧ (isfile dict_file = true →
     (∀ e, open_lines dict_file = Raise e →
           load_dictionary_file isfile open_lines dict_file board = Raise e)
     ∧ ∀ lines, open_lines dict_file = Ret lines →
         load_dictionary_file isfile open_lines dict_file board
         = _load_dictionary lines board
         ∧ ((∃ valid_words, _load_dictionary lines board = Ret valid_words)
            ∨ _load_dictionary lines board = Raise KeyError)
         ∧ (_load_dictionary lines board = Raise KeyError ↔
            ∃ word, word ∈ filter (passes_filter board) (str_strip <$> lines)
                    ∧ ¬ keyed (present_letters_of board) word)).
Proof.
  unfold load_dictionary_file, py_assert. split; [by intros ->|].
  intros ->. res_simpl. split; [by intros e ->|].
  intros lines ->. res_simpl. split; [done|].
  rewrite <-unsorted_valid_words_filter.
  assert (Forall (λ word, (2 ≤ length (str_chars word))%nat)
                 (unsorted_valid_words lines board)) as Hlen.
  { apply Forall_forall. intros word Hw%words_length.
    rewrite len_chars in Hw. lia. }
  unfold _load_dictionary.
  destruct (empty_index_spec (present_letters_of board)) as (vw0 & -> & Hidx0).
  res_simpl.
  destruct (append_words_cases _ _ [] _ Hidx0 Hlen) as [[vw Hrun]|[Hrun Hbad]].
  - split; [left; eauto|]. rewrite Hrun. split; [done|].
    intros (word & Hw & Hnk).
    destruct (append_words_Ret _ _ [] _ _ Hidx0 Hrun) as [_ Hkeyed].
    rewrite Forall_forall in Hkeyed. by destruct Hnk; apply Hkeyed.
  - split; [by right|]. by rewrite Hrun.
Qed.

Lemma load_dictionary_KeyError_witness :
  load_dictionary_file (λ _, true) (λ _, Ret ["via"; "Via"; "ivy"]) "dictionary.txt"
                       "vvvvvviavvvvvvvq" = Raise KeyError.
Proof.
  destruct (load_dictionary_KeyError (λ _, true) (λ _, Ret ["via"; "Via"; "ivy"])
              "dictionary.txt" "vvvvvviavvvvvvvq") as [_ Hfile].
  destruct (Hfile eq_refl) as [_ Hlines].
  destruct (Hlines ["via"; "Via"; "ivy"] eq_refl) as (-> & _ & Hkey).
  apply Hkey. exists "Via". split; [compute_done|].
  intros (a & b & [H0 _] & Ha & _). vm_compute in H0. injection H0 as <-.
  apply elem_of_present_letters in Ha as [Ha _]. revert Ha. compute_done.
Defined.

(** ** The words a run outputs *)

Lemma alphabet_is_lower c : c ∈ str_chars alphabet → is_lower c = true.
Proof.
  revert c. apply Forall_forall. compute_done.
Qed.

Lemma cell_text_q_then_u board pos rest :
  valid_board board → 0 ≤ pos ≤ 15 → q_then_u rest →
  q_then_u (str_chars (cell_text board pos) ++ rest).
Proof.
  intros Hb Hpos Hrest. destruct (cell_text_chars _ _ Hb Hpos) as (c & _ & _ & ->).
  case_decide as Hq; simpl.
  - split; [eauto|]. split; [done|done].
  - split; [done|done].
Qed.

Lemma spelled_q_then_u board path :
  valid_board board → Forall (λ pos, 0 ≤ pos ≤ 15) path →
  q_then_u (str_chars (spelled board path)).
Proof.
  intros Hb. induction 1 as [|p path Hp Hpath IH]; [done|].
  rewrite spelled_cons, str_chars_app. by apply cell_text_q_then_u.
Qed.

(** X10: whatever the dictionary, every word a run outputs is a stripped
    line of it with 3 to 17 characters, all of them lowercase letters, and
    every 'q' in it is followed by 'u'. *)
Theorem output_words_shape (iter_moves : gset Z → list Z)
    (iter_words : gset string → list string) (cache : gmap Z (gset Z))
    (lines : list string) (text : string) (out_words : list string)
    (word : string) :
  (∀ moves, iter_moves moves ≡ₚ elements moves) →
  (∀ found, iter_words found ≡ₚ elements found) →
  BoggleBoard iter_moves iter_words cache lines text = Ret out_words →
  word ∈ out_words →
  word ∈ str_strip <$> lines ∧ 3 ≤ len word ≤ 17
  ∧ lowercase_word word ∧ q_then_u (str_chars word).
Proof.
  intros Hmoves Hwords Hrun Hin.
  destruct (_load_board text) as [board| |] eqn:Htext;
    [|by unfold BoggleBoard in Hrun; rewrite Htext in Hrun..].
  pose proof (load_board_valid _ _ Htext) as Hboard.
  destruct (BoggleBoard_Ret_load iter_moves iter_words cache lines text board
              Htext out_words Hrun) as (valid_words & Hload).
  destruct (BoggleBoard_out iter_moves iter_words Hmoves Hwords cache lines text
              board Htext valid_words out_words Hload Hrun) as (_ & _ & Hout).
  pose proof (proj1 (Hout word) Hin) as [Hw (path & (_ & Hrange & _) & Hsp)].
  apply elem_of_unsorted_valid_words in Hw as (Hline & Hlen & _).
  split; [done|]. split; [done|]. rewrite <-Hsp.
  split; [|by apply spelled_q_then_u].
  apply Forall_forall. intros c Hc. apply alphabet_is_lower.
  apply (spelled_present _ _ _ Hboard Hrange) in Hc.
  by apply elem_of_present_letters in Hc as [? _].
Qed.

Lemma output_words_shape_witness :
  "quiv" ∈ str_strip <$> ["via"; "Quiz"; "quiv"; "vivid"; "iq"]
  ∧ 3 ≤ len "quiv" ≤ 17 ∧ lowercase_word "quiv" ∧ q_then_u (str_chars "quiv").
Proof.
  apply (output_words_shape elements elements ∅ ["via"; "Quiz"; "quiv"; "vivid"; "iq"]
           "vvvvvaiqvvvvvvvv" ["quiv"; "via"]).
  - intros moves. reflexivity.
  - intros found. reflexivity.
  - vm_compute. reflexivity.
  - compute_done.
Defined.

(** X11: when no stripped line of 3 to 17 characters is free of absent
    letters, as for a board of sixteen 'x', the run returns the empty list
    and writes an empty file, whatever else the dictionary holds. *)
Theorem no_word_no_output (iter_moves : gset Z → list Z)
    (iter_words : gset string → list string) (cache : gmap Z (gset Z))
    (lines : list string) (text board : string) :
  (∀ moves, iter_moves moves ≡ₚ elements moves) →
  (∀ found, iter_words found ≡ₚ elements found) →
  _load_board text = Ret board →
  (∀ word, word ∈ str_strip <$> lines → 3 ≤ len word ≤ 17 →
           ¬ no_absent_letter board word) →
  BoggleBoard iter_moves iter_words cache lines text = Ret []
  ∧ file_text [] = "".
Proof.
  intros Hmoves Hwords Htext Hnone. split; [|done].
  assert (unsorted_valid_words lines board = []) as Hnil.
  { apply elem_of_nil_inv. intros word (Hin & Hlen & Hno)%elem_of_unsorted_valid_words.
    by apply (Hnone word). }
  destruct (load_dictionary_ok lines board) as [valid_words Hload].
  { rewrite Hnil. constructor. }
  destruct (BoggleBoard_spec iter_moves iter_words Hmoves cache lines text board
              Htext valid_words Hload) as (found & -> & Hfound).
  assert (found = ∅) as ->.
  { apply set_eq. intros word. rewrite Hfound, Hnil. set_solver. }
  assert (iter_words ∅ = []) as ->; [|done].
  apply Permutation_nil_r. by rewrite Hwords, elements_empty.
Qed.

Lemma no_word_no_output_witness :
  BoggleBoard elements elements ∅ ["via"; "axe"; "xx"] (String.string_of_list_ascii (replicate 16 "X"%char))
  = Ret [].
Proof.
  apply (no_word_no_output elements elements ∅ ["via"; "axe"; "xx"]
           (String.string_of_list_ascii (replicate 16 "X"%char)) "xxxxxxxxxxxxxxxx").
  - intros moves. reflexivity.
  - intros found. reflexivity.
  - vm_compute. reflexivity.
  - intros word Hin Hlen Hno.
    assert (word = "via" ∨ word = "axe" ∨ word = "xx") as Hcases.
    { vm_compute in Hin. set_solver. }
    destruct Hcases as [-> | [-> | ->]].
    + by destruct (Hno "v"%char ltac:(compute_done) eq_refl) as [?|[? _]].
    + by destruct (Hno "a"%char ltac:(compute_done) eq_refl) as [?|[? _]].
    + vm_compute in Hlen. by destruct Hlen as [Hlen _]; apply Hlen.
Defined.

(** ** The output file read back *)

Lemma file_text_join out_words :
  file_text out_words = str_join ((λ word, word +:+ newline) <$> out_words).
Proof.
  unfold file_text.
  assert (∀ text, foldl (λ text word, text +:+ (word +:+ newline)) text out_words
                  = text +:+ str_join ((λ word, word +:+ newline) <$> out_words))
    as Hgen.
  { induction out_words as [|w l IH]; intros text; simpl.
    - unfold str_join. simpl. by rewrite str_app_nil_r.
    - rewrite IH. unfold str_join. simpl. by rewrite !str_app_assoc. }
  apply (Hgen "").
Qed.

Lemma file_lines_line word rest :
  "010"%char ∉ str_chars word →
  file_lines ((word +:+ newline) +:+ rest) = (word +:+ newline) :: file_lines rest.
Proof.
  induction word as [|a word IH]; intros Hnl.
  - done.
  - change ((String a word +:+ newline) +:+ rest)
      with (String a ((word +:+ newline) +:+ rest)).
    cbn [file_lines]. simpl in Hnl. apply not_elem_of_cons in Hnl as [Ha Hnl].
    rewrite decide_False by done. by rewrite IH.
Qed.

Lemma file_lines_file_text out_words :
  Forall (λ word, "010"%char ∉ str_chars word) out_words →
  file_lines (file_text out_words) = (λ word, word +:+ newline) <$> out_words.
Proof.
  rewrite file_text_join. induction 1 as [|w l Hw Hl IH]; [done|].
  rewrite fmap_cons. unfold str_join in *. cbn [foldr].
  by rewrite file_lines_line, IH.
Qed.

Lemma str_lstrip_nonspace s :
  Forall (λ c, Ascii.is_space c = false) (str_chars s) →
  ∀ rest, str_lstrip (s +:+ rest) = if decide (s = "") then str_lstrip rest else s +:+ rest.
Proof.
  intros Hs rest. destruct s as [|a s]; [done|].
  apply Forall_cons in Hs as [Ha _].
  change (String a s +:+ rest) with (String a (s +:+ rest)). simpl. by rewrite Ha.
Qed.

Lemma str_rstrip_newline s :
  Forall (λ c, Ascii.is_space c = false) (str_chars s) →
  str_rstrip (s +:+ newline) = s.
Proof.
  induction s as [|a s IH]; intros Hs; [done|].
  apply Forall_cons in Hs as [Ha Hs].
  change (String a s +:+ newline) with (String a (s +:+ newline)).
  cbn [str_rstrip]. rewrite IH by done. destruct s; [by rewrite Ha|done].
Qed.

Lemma str_strip_newline s :
  Forall (λ c, Ascii.is_space c = false) (str_chars s) →
  str_strip (s +:+ newline) = s.
Proof.
  intros Hs. unfold str_strip. rewrite (str_lstrip_nonspace _ Hs).
  case_decide as He; [by subst s|]. by apply str_rstrip_newline.
Qed.

Lemma file_text_read_back (out_words : list string) :
  Forall (λ word, Forall (λ c, Ascii.is_space c = false) (str_chars word)) out_words →
  str_strip <$> file_lines (file_text out_words) = out_words.
Proof.
  intros Hout. rewrite file_lines_file_text.
  - rewrite <-list_fmap_compose. rewrite <-(list_fmap_id out_words) at 2.
    apply Forall_fmap_ext. eapply Forall_impl; [done|].
    intros word Hw. by apply str_strip_newline.
  - eapply Forall_impl; [done|]. intros word Hw Hin.
    rewrite Forall_forall in Hw. by specialize (Hw _ Hin).
Qed.

(** X12: reading the output file back line by line and stripping each line
    gives the list that was written, when no word holds whitespace; the file
    holds each word followed by a newline. *)
Theorem output_file_round_trip (out_words : list string) :
  Forall (λ word, Forall (λ c, Ascii.is_space c = false) (str_chars word)) out_words →
  file_text out_words = str_join ((λ word, word +:+ newline) <$> out_words)
  ∧ file_lines (file_text out_words) = (λ word, word +:+ newline) <$> out_words
  ∧ str_strip <$> file_lines (file_text out_words) = out_words.
Proof.
  intros Hout. split; [apply file_text_join|]. split; [|by apply file_text_read_back].
  apply file_lines_file_text. eapply Forall_impl; [done|]. intros word Hw Hin.
  rewrite Forall_forall in Hw. by specialize (Hw _ Hin).
Qed.

Lemma output_file_round_trip_witness :
  str_strip <$> file_lines (file_text ["quiv"; "via"; "vvv"]) = ["quiv"; "via"; "vvv"].
Proof. apply (output_file_round_trip ["quiv"; "via"; "vvv"]). compute_done. Defined.

Lemma is_lower_nonspace c : is_lower c = true → Ascii.is_space c = false.
Proof. by intros [_ ?]%is_lower_fixed. Qed.

(** X13: the output file of a run is a dictionary on which a second run,
    for the same board, returns the same list again. *)
Theorem output_is_fixed_point (iter_moves iter_moves' : gset Z → list Z)
    (iter_words iter_words' : gset string → list string)
    (cache cache' : gmap Z (gset Z))
    (lines : list string) (text : string) (out_words : list string) :
  (∀ moves, iter_moves moves ≡ₚ elements moves) →
  (∀ found, iter_words found ≡ₚ elements found) →
  (∀ moves, iter_moves' moves ≡ₚ elements moves) →
  (∀ found, iter_words' found ≡ₚ elements found) →
  BoggleBoard iter_moves iter_words cache lines text = Ret out_words →
  BoggleBoard iter_moves' iter_words' cache' (file_lines (file_text out_words)) text
  = Ret out_words.
Proof.
  intros Hmoves Hwords Hmoves' Hwords' Hrun.
  destruct (_load_board text) as [board| |] eqn:Htext;
    [|by unfold BoggleBoard in Hrun; rewrite Htext in Hrun..].
  pose proof (load_board_valid _ _ Htext) as Hboard.
  destruct (BoggleBoard_Ret_load iter_moves iter_words cache lines text board
              Htext out_words Hrun) as (valid_words & Hload).
  destruct (BoggleBoard_out iter_moves iter_words Hmoves Hwords cache lines text
              board Htext valid_words out_words Hload Hrun)
    as (Hsorted & Hnd & Hout).
  destruct (load_dictionary_Ret _ _ _ Hload) as [_ Hkeyed].
  rewrite Forall_forall in Hkeyed.
  set (lines' := file_lines (file_text out_words)).
  assert (str_strip <$> lines' = out_words) as Hback.
  { apply file_text_read_back, Forall_forall. intros word Hin.
    apply Hout in Hin as [_ (path & (_ & Hrange & _) & <-)].
    apply Forall_forall. intros c Hc. apply is_lower_nonspace, alphabet_is_lower.
    apply (spelled_present _ _ _ Hboard Hrange) in Hc.
    by apply elem_of_present_letters in Hc as [? _]. }
  assert (∀ word, word ∈ unsorted_valid_words lines' board ↔ word ∈ out_words)
    as Hsame.
  { intros word. rewrite elem_of_unsorted_valid_words, Hback. split; [tauto|].
    intros Hin. split; [done|]. apply Hout in Hin as [Hw _].
    by apply elem_of_unsorted_valid_words in Hw as (_ & ? & ?). }
  destruct (load_dictionary_ok lines' board) as [valid_words' Hload'].
  { apply Forall_forall. intros word Hw%Hsame. by apply Hkeyed, Hout. }
  destruct (BoggleBoard_spec iter_moves' iter_words' Hmoves' cache' lines' text board
              Htext valid_words' Hload') as (found' & -> & Hfound').
  f_equal. apply (Sorted_unique String.le); [apply Sorted_merge_sort; apply _|done|].
  rewrite merge_sort_Permutation, Hwords'.
  apply NoDup_Permutation; [apply NoDup_elements|done|].
  intros word. rewrite elem_of_elements, Hfound', Hsame, Hout. tauto.
Qed.

Lemma output_is_fixed_point_witness :
  BoggleBoard (λ moves, reverse (elements moves)) elements
              (_build_possible_index_moves ∅)
              (file_lines (file_text ["quiv"; "via"])) "vvvvvaiqvvvvvvvv"
  = Ret ["quiv"; "via"].
Proof.
  apply (output_is_fixed_point elements (λ moves, reverse (elements moves))
           elements elements ∅ (_build_possible_index_moves ∅)
           ["via"; "quiz"; "quiv"; "vivid"] "vvvvvaiqvvvvvvvv").
  - intros moves. reflexivity.
  - intros found. reflexivity.
  - intros moves. apply reverse_Permutation.
  - intros found. reflexivity.
  - vm_compute. reflexivity.
Defined.

(** ** What the search adds to [found_words], for any board and index *)

Lemma for_each_preserve {A S : Type} (R : relation S) `{!PreOrder R}
    (body : S → A → res S) l : ∀ acc acc',
  (∀ acc x acc', body acc x = Ret acc' → R acc acc') →
  for_each body l acc = Ret acc' → R acc acc'.
Proof.
  induction l as [|x l IH]; intros acc acc' Hbody; cbn [for_each].
  - by intros [= <-].
  - intros (acc1 & H1 & Hrest)%res_bind_Ret. etrans; [by eapply Hbody|].
    by apply IH.
Qed.

Lemma word_bucket_indexed valid_words cur_word bucket word :
  word_bucket valid_words cur_word = Ret bucket → word ∈ bucket →
  indexed valid_words word.
Proof.
  unfold word_bucket. intros Hrun Hin.
  apply res_bind_Ret in Hrun as (c0 & _ & Hrun).
  apply res_bind_Ret in Hrun as (bucket_row & Hrow%dict_index_Ret & Hrun).
  apply res_bind_Ret in Hrun as (c1 & _ & Hb%dict_index_Ret).
  by exists c0, c1, bucket_row, bucket.
Qed.

Lemma score_path_adds board valid_words cur_path found_words is_word_start found_words' :
  score_path board valid_words cur_path found_words = Ret (is_word_start, found_words') →
  found_words ⊆ found_words'
  ∧ ∀ word, word ∈ found_words' →
            word ∈ found_words ∨ (indexed valid_words word ∧ 2 < len word).
Proof.
  unfold score_path. case_bool_decide.
  { intros [= _ <-]. split; [done|]. by left. }
  intros (cur_word & _ & Hrun)%res_bind_Ret.
  apply res_bind_Ret in Hrun as (bucket & _ & Hrun).
  destruct (len cur_word >? 2) eqn:Hlen.
  - apply res_bind_Ret in Hrun as (bucket' & Hbucket & Hrun).
    injection Hrun as _ <-. case_bool_decide as Hin.
    + split; [set_solver|]. intros word [?| ->%elem_of_singleton]%elem_of_union;
        [by left|]. right. split; [by eapply word_bucket_indexed|lia].
    + split; [done|]. by left.
  - injection Hrun as _ <-. split; [done|]. by left.
Qed.

(** X14: for any board, table of moves and index, on the board or not, a
    call of [_find_words] or the whole search that returns has kept every
    word that was in [found_words], and each word it added sits in a bucket
    of the index and has more than 2 characters. *)
Theorem found_words_only_grow (iter_moves : gset Z → list Z)
    (possible_index_moves : gmap Z (gset Z)) (board : string)
    (valid_words : gmap ascii (gmap ascii (list string))) :
  (∀ fuel index used_letter_arg cur_path_arg found_words found_words',
     _find_words iter_moves possible_index_moves board valid_words fuel index
                 used_letter_arg cur_path_arg found_words = Ret found_words' →
     found_words ⊆ found_words'
     ∧ ∀ word, word ∈ found_words' →
               word ∈ found_words ∨ (indexed valid_words word ∧ 2 < len word))
  ∧ (∀ found_words found_words',
       search_all iter_moves possible_index_moves board valid_words found_words
       = Ret found_words' →
       found_words ⊆ found_words'
       ∧ ∀ word, word ∈ found_words' →
                 word ∈ found_words ∨ (indexed valid_words word ∧ 2 < len word)).
Proof.
  set (R := λ found found' : gset string,
         found ⊆ found'
         ∧ ∀ word, word ∈ found' →
                   word ∈ found ∨ (indexed valid_words word ∧ 2 < len word)).
  assert (PreOrder R) as HR.
  { split.
    - intros found. split; [done|]. by left.
    - intros f1 f2 f3 [H12 A12] [H23 A23]. split; [by etrans|].
      intros word [Hin|?]%A23; [by apply A12|by right]. }
  assert (∀ fuel index used_letter_arg cur_path_arg found_words found_words',
    _find_words iter_moves possible_index_moves board valid_words fuel index
                used_letter_arg cur_path_arg found_words = Ret found_words' →
    R found_words found_words') as Hfind.
  { induction fuel as [|fuel IH]; intros index used path found found'; [done|].
    cbn [_find_words].
    intros (used' & _ & Hrun)%res_bind_Ret.
    apply res_bind_Ret in Hrun as (moves & _ & Hrun).
    apply res_bind_Ret in Hrun as (avail & _ & Hrun).
    apply res_bind_Ret in Hrun as ([st found1] & Hscore & Hrun).
    apply score_path_adds in Hscore. fold (R found found1) in Hscore.
    destruct (st && bool_decide (avail ≠ [])).
    - etrans; [done|]. eapply (for_each_preserve R); [|done].
      intros acc move acc'. apply IH.
    - by injection Hrun as <-. }
  split; [apply Hfind|]. intros found found'. unfold search_all.
  apply (for_each_preserve R). intros acc i acc'. apply Hfind.
Qed.

Lemma found_words_only_grow_witness :
  ∃ found_words' : gset string,
    search_all elements (_build_possible_index_moves ∅) "xxxxxxxxxxxxxxxx"
      {[ "x"%char := {[ "x"%char := ["xxx"] ]} ]} {[ "kept" ]} = Ret found_words'
    ∧ {[ "kept" ]} ⊆ found_words'.
Proof.
  destruct (found_words_only_grow elements (_build_possible_index_moves ∅)
              "xxxxxxxxxxxxxxxx"
              {[ "x"%char := {[ "x"%char := ["xxx"] ]} ]}) as [_ Hall].
  eexists. split; [vm_compute; reflexivity|].
  eapply Hall. vm_compute. reflexivity.
Defined.

(** ** The command line, again *)

(** X15: when [check_input_args] returns, both paths it returns are files;
    an argument that is a file is returned as it is, any other one joined to
    the data directory; when both arguments are missing the error names the
    dictionary. *)
Theorem check_input_args_files (isfile : string → bool) (DATA_DIR : string)
    (path_join : string → string → string) (dict_arg board_arg : string) :
  (∀ dict_file board_file,
     check_input_args isfile DATA_DIR path_join dict_arg board_arg
     = Ret (dict_file, board_file) →
     isfile dict_file = true ∧ isfile board_file = true
     ∧ dict_file = (if isfile dict_arg then dict_arg else path_join DATA_DIR dict_arg)
     ∧ board_file = (if isfile board_arg then board_arg
                     else path_join DATA_DIR board_arg))
  ∧ (isfile dict_arg = false → isfile (path_join DATA_DIR dict_arg) = false →
     check_input_args isfile DATA_DIR path_join dict_arg board_arg
     = Raise (IOError "Dictionary file not found.")).
Proof.
  unfold check_input_args, py_assert, except_AssertionError. split.
  - intros dict_file board_file.
    destruct (isfile dict_arg) eqn:Hd,
             (isfile (path_join DATA_DIR dict_arg)) eqn:Hd',
             (isfile board_arg) eqn:Hb,
             (isfile (path_join DATA_DIR board_arg)) eqn:Hb'; res_simpl;
      intros [= <- <-]; done.
  - intros -> ->. done.
Qed.

(** ** [_find_words] off the board, and at a starting cell *)

Lemma build_cache_lookup (cache : gmap Z (gset Z)) i :
  _build_possible_index_moves cache !! i
  = if decide (0 ≤ i ≤ 15) then Some (_get_possible_index_moves i) else cache !! i.
Proof.
  case_decide as Hi; [by apply build_possible_index_moves_lookup|].
  unfold _build_possible_index_moves.
  assert (∀ l (d : gmap Z (gset Z)), i ∉ l →
    foldl (λ d i, <[i := _get_possible_index_moves i]> d) d l !! i = d !! i)
    as Hgen.
  { induction l as [|j l IH]; intros d Hl; cbn [foldl]; [done|].
    rewrite IH by set_solver. apply lookup_insert_ne. set_solver. }
  apply Hgen. rewrite elem_of_seqZ. lia.
Qed.

(** X17: called with sixteen flags and an index that is not a cell,
    [_find_words] raises: [IndexError] when the index is above 15 or below
    -16; an index from -16 to -1 counts from the end of the list of flags,
    so the assignment goes through and the lookup in a freshly built table
    of moves raises [KeyError]. *)
Theorem find_words_off_board (iter_moves : gset Z → list Z) (board : string)
    (valid_words : gmap ascii (gmap ascii (list string))) (fuel : nat) (index : Z)
    (used_letter_arg : list bool) (cur_path_arg : list Z)
    (found_words : gset string) :
  length used_letter_arg = 16%nat →
  (index < -16 ∨ 15 < index →
   ∀ possible_index_moves,
     _find_words iter_moves possible_index_moves board valid_words (S fuel) index
                 used_letter_arg cur_path_arg found_words = Raise IndexError)
  ∧ (-16 ≤ index < 0 →
     _find_words iter_moves (_build_possible_index_moves ∅) board valid_words
                 (S fuel) index used_letter_arg cur_path_arg found_words
     = Raise KeyError).
Proof.
  intros Hlen. split.
  - intros Hout table. cbn [_find_words]. unfold list_setitem, py_norm.
    rewrite Hlen. destruct (index <? 0) eqn:Hneg.
    + assert ((0 <=? index + Z.of_nat 16) && (index + Z.of_nat 16 <? Z.of_nat 16)
              = false) as ->; [|done].
      apply Z.ltb_lt in Hneg. apply andb_false_iff. left. apply Z.leb_gt.
      change (Z.of_nat 16) with 16. lia.
    + assert ((0 <=? index) && (index <? Z.of_nat 16) = false) as ->; [|done].
      apply Z.ltb_ge in Hneg. apply andb_false_iff. right. apply Z.ltb_ge.
      change (Z.of_nat 16) with 16. lia.
  - intros Hwrap. cbn [_find_words]. unfold list_setitem, py_norm.
    rewrite Hlen. change (Z.of_nat 16) with 16.
    assert ((index <? 0) = true) as -> by (apply Z.ltb_lt; lia).
    assert ((0 <=? index + 16) && (index + 16 <? 16) = true) as ->.
    { apply andb_true_iff. split; [apply Z.leb_le|apply Z.ltb_lt]; lia. }
    res_simpl. unfold dict_index at 1.
    rewrite (build_cache_lookup ∅).
    rewrite decide_False by lia. by rewrite lookup_empty.
Qed.

Lemma find_words_off_board_witness :
  _find_words elements (_build_possible_index_moves ∅) "vvvvvviavvvvvvvq" ∅ 16 (-1)
              (replicate 16 false) [] ∅ = Raise KeyError
  ∧ _find_words elements (_build_possible_index_moves ∅) "vvvvvviavvvvvvvq" ∅ 16 16
                (replicate 16 false) [] ∅ = Raise IndexError.
Proof.
  destruct (find_words_off_board elements "vvvvvviavvvvvvvq" ∅ 15 (-1)
              (replicate 16 false) [] ∅ eq_refl) as [_ Hwrap].
  destruct (find_words_off_board elements "vvvvvviavvvvvvvq" ∅ 15 16
              (replicate 16 false) [] ∅ eq_refl) as [Hout _].
  split; [apply Hwrap; lia|apply Hout; lia].
Defined.

(** X18: the search started at a cell, with no cell used and nothing found
    before, returns exactly the filtered dictionary words that simple paths
    starting at this cell spell. *)
Theorem find_words_from_cell (iter_moves : gset Z → list Z) (cache : gmap Z (gset Z))
    (lines : list string) (board : string)
    (valid_words : gmap ascii (gmap ascii (list string))) (i : Z) :
  (∀ moves, iter_moves moves ≡ₚ elements moves) →
  valid_board board →
  _load_dictionary lines board = Ret valid_words →
  0 ≤ i ≤ 15 →
  ∃ found_words,
    _find_words iter_moves (_build_possible_index_moves cache) board valid_words
                search_depth i (replicate 16 false) [] ∅ = Ret found_words
    ∧ ∀ word, word ∈ found_words ↔
              word ∈ unsorted_valid_words lines board
              ∧ ∃ rest, simple_path table_adjacent (i :: rest)
                        ∧ spelled board (i :: rest) = word.
Proof.
  intros Hmoves Hboard Hload Hi.
  destruct (find_words_spec iter_moves Hmoves cache lines board valid_words Hboard
              Hload search_depth i (replicate 16 false) [] ∅)
    as (found & Hrun & Hfound).
  - split; [done|]. split; [by apply Forall_singleton|].
    split; [apply NoDup_singleton|done].
  - apply marks_start.
  - unfold search_depth. simpl. lia.
  - exists found. split; [done|]. intros word. rewrite Hfound.
    unfold reach. simpl. split; [|by right].
    by intros [?%not_elem_of_empty|?].
Qed.

Lemma find_words_from_cell_witness :
  ∃ valid_words found_words,
    _load_dictionary ["via"; "vvv"] "vvvvvviavvvvvvvq" = Ret valid_words
    ∧ _find_words elements (_build_possible_index_moves ∅) "vvvvvviavvvvvvvq"
                  valid_words search_depth 6 (replicate 16 false) [] ∅
      = Ret found_words
    ∧ "via" ∉ found_words.
Proof.
  destruct (load_dictionary_lowercase ["via"; "vvv"] "vvvvvviavvvvvvvq")
    as [valid_words Hload].
  { unfold lowercase_dictionary, lowercase_word. compute_done. }
  destruct (find_words_from_cell elements ∅ ["via"; "vvv"] "vvvvvviavvvvvvvq"
              valid_words 6) as (found & Hrun & Hfound).
  - intros moves. reflexivity.
  - split; [reflexivity|]. compute_done.
  - exact Hload.
  - lia.
  - exists valid_words, found. split; [exact Hload|]. split; [exact Hrun|].
    intros [_ (rest & _ & Hsp)]%Hfound. vm_compute in Hsp. discriminate Hsp.
Defined.

(** X19: for a validated board and an index that was built, a search from a
    cell that is allowed to nest deeper than sixteen calls returns the same
    set as the search of depth sixteen. *)
Theorem search_depth_enough (iter_moves : gset Z → list Z) (cache : gmap Z (gset Z))
    (lines : list string) (board : string)
    (valid_words : gmap ascii (gmap ascii (list string))) (i : Z) (fuel : nat)
    (found_words : gset string) :
  (∀ moves, iter_moves moves ≡ₚ elements moves) →
  valid_board board →
  _load_dictionary lines board = Ret valid_words →
  0 ≤ i ≤ 15 → (search_depth ≤ fuel)%nat →
  _find_words iter_moves (_build_possible_index_moves cache) board valid_words
              fuel i (replicate 16 false) [] found_words
  = _find_words iter_moves (_build_possible_index_moves cache) board valid_words
                search_depth i (replicate 16 false) [] found_words.
Proof.
  intros Hmoves Hboard Hload Hi Hfuel.
  assert (simple_path table_adjacent ([] ++ [i])) as Hsimple.
  { split; [done|]. split; [by apply Forall_singleton|].
    split; [apply NoDup_singleton|done]. }
  destruct (find_words_spec iter_moves Hmoves cache lines board valid_words Hboard
              Hload fuel i (replicate 16 false) [] found_words Hsimple marks_start)
    as (found1 & -> & Hfound1).
  { unfold search_depth in Hfuel. simpl. lia. }
  destruct (find_words_spec iter_moves Hmoves cache lines board valid_words Hboard
              Hload search_depth i (replicate 16 false) [] found_words Hsimple
              marks_start) as (found2 & -> & Hfound2).
  { unfold search_depth. simpl. lia. }
  f_equal. apply set_eq. intros word. by rewrite Hfound1, Hfound2.
Qed.

Lemma search_depth_enough_witness :
  ∃ valid_words,
    _load_dictionary ["via"; "vvv"] "vvvvvviavvvvvvvq" = Ret valid_words
    ∧ _find_words elements (_build_possible_index_moves ∅) "vvvvvviavvvvvvvq"
                  valid_words 40 5 (replicate 16 false) [] ∅
      = _find_words elements (_build_possible_index_moves ∅) "vvvvvviavvvvvvvq"
                    valid_words search_depth 5 (replicate 16 false) [] ∅.
Proof.
  destruct (load_dictionary_lowercase ["via"; "vvv"] "vvvvvviavvvvvvvq")
    as [valid_words Hload].
  { unfold lowercase_dictionary, lowercase_word. compute_done. }
  exists valid_words. split; [exact Hload|].
  apply (search_depth_enough elements ∅ ["via"; "vvv"] "vvvvvviavvvvvvvq").
  - intros moves. reflexivity.
  - split; [reflexivity|]. compute_done.
  - exact Hload.
  - lia.
  - unfold search_depth. lia.
Defined.

(** ** The prefix test *)

(** X20: for a validated board and an index that was built, the test that
    lets [_find_words] recurse from a path of at least two cells holds
    exactly when some filtered dictionary word starts with the string of the
    path; a path of one cell always passes. *)
Theorem prefix_test_exact (lines : list string) (board : string)
    (valid_words : gmap ascii (gmap ascii (list string))) (cur_path : list Z)
    (found_words : gset string) :
  valid_board board →
  _load_dictionary lines board = Ret valid_words →
  cur_path ≠ [] → Forall (λ pos, 0 ≤ pos ≤ 15) cur_path →
  ∃ is_word_start found_words',
    score_path board valid_words cur_path found_words
    = Ret (is_word_start, found_words')
    ∧ (is_word_start = true ↔
       length cur_path = 1%nat
       ∨ ∃ word, word ∈ unsorted_valid_words lines board
                 ∧ String.prefix (spelled board cur_path) word = true).
Proof.
  intros Hboard Hload Hne Hrange.
  destruct (score_path_spec lines board valid_words Hboard Hload cur_path
              found_words Hne Hrange) as (st & found' & Hrun & _ & Hprune).
  exists st, found'. split; [done|]. split.
  - intros ->. unfold score_path in Hrun. case_bool_decide as Hone; [by left|].
    right. apply res_bind_Ret in Hrun as (cur_word & Hword & Hrun).
    rewrite build_cur_word_spelled in Hword by done. injection Hword as <-.
    apply res_bind_Ret in Hrun as (bucket & Hbucket & Hrun).
    assert (existsb (String.prefix (spelled board cur_path)) bucket = true) as Hex.
    { destruct (len (spelled board cur_path) >? 2).
      - apply res_bind_Ret in Hrun as (? & _ & Hrun). by injection Hrun as ->.
      - by injection Hrun as ->. }
    apply existsb_exists in Hex as (word & Hin%list_elem_of_In & Hpre).
    exists word. split; [|done].
    apply (indexed_unsorted_valid_words _ _ _ _ Hload).
    by eapply word_bucket_indexed.
  - intros [Hone|(word & Hw & Hpre)].
    + unfold score_path in Hrun. rewrite bool_decide_eq_true_2 in Hrun by done.
      by injection Hrun as <-.
    + destruct st; [done|]. exfalso. apply (Hprune eq_refl word Hw).
      by apply str_prefix_chars.
Qed.

Lemma prefix_test_exact_witness :
  ∃ valid_words is_word_start found_words',
    _load_dictionary ["via"; "quiz"] "vvvvvviavvvvvvvq" = Ret valid_words
    ∧ score_path "vvvvvviavvvvvvvq" valid_words [5; 6] ∅
      = Ret (is_word_start, found_words')
    ∧ is_word_start = true.
Proof.
  destruct (load_dictionary_lowercase ["via"; "quiz"] "vvvvvviavvvvvvvq")
    as [valid_words Hload].
  { unfold lowercase_dictionary, lowercase_word. compute_done. }
  destruct (prefix_test_exact ["via"; "quiz"] "vvvvvviavvvvvvvq" valid_words [5; 6] ∅)
    as (st & found' & Hrun & Hst).
  - split; [reflexivity|]. compute_done.
  - exact Hload.
  - discriminate.
  - repeat constructor; lia.
  - exists valid_words, st, found'. split; [exact Hload|]. split; [exact Hrun|].
    apply Hst. right. exists "via". split; [|reflexivity]. compute_done.
Defined.

(** ** The dictionary as a set of words *)

Lemma load_dictionary_Ret_or_KeyError lines board :
  (∃ valid_words, _load_dictionary lines board = Ret valid_words)
  ∨ _load_dictionary lines board = Raise KeyError.
Proof.
  assert (Forall (λ word, (2 ≤ length (str_chars word))%nat)
                 (unsorted_valid_words lines board)) as Hlen.
  { apply Forall_forall. intros word Hw%words_length.
    rewrite len_chars in Hw. lia. }
  unfold _load_dictionary.
  destruct (empty_index_spec (present_letters_of board)) as (vw0 & -> & Hidx0).
  res_simpl.
  destruct (append_words_cases _ _ [] _ Hidx0 Hlen) as [?|[? _]]; [by left|by right].
Qed.

Lemma load_dictionary_same_words lines1 lines2 board valid_words1 :
  (∀ word, word ∈ str_strip <$> lines1 ↔ word ∈ str_strip <$> lines2) →
  _load_dictionary lines1 board = Ret valid_words1 →
  ∃ valid_words2, _load_dictionary lines2 board = Ret valid_words2.
Proof.
  intros Hsame [_ Hkeyed]%load_dictionary_Ret. apply load_dictionary_ok.
  rewrite Forall_forall in Hkeyed. apply Forall_forall. intros word Hw.
  apply Hkeyed. apply elem_of_unsorted_valid_words.
  apply elem_of_unsorted_valid_words in Hw as (? & ? & ?).
  split; [by apply Hsame|done].
Qed.

(** X21: a run depends on the dictionary only through the set of its
    stripped lines: for two dictionaries that hold the same words, in any
    order and any number of times, one run returns a list exactly when the
    other returns the same list, and one raises exactly when the other
    raises (the [KeyError] of the two runs can name different keys). *)
Theorem dictionary_order_irrelevant (iter_moves : gset Z → list Z)
    (iter_words : gset string → list string) (cache : gmap Z (gset Z))
    (lines1 lines2 : list string) (text : string) :
  (∀ moves, iter_moves moves ≡ₚ elements moves) →
  (∀ found, iter_words found ≡ₚ elements found) →
  (∀ word, word ∈ str_strip <$> lines1 ↔ word ∈ str_strip <$> lines2) →
  (∀ out_words,
     BoggleBoard iter_moves iter_words cache lines1 text = Ret out_words ↔
     BoggleBoard iter_moves iter_words cache lines2 text = Ret out_words)
  ∧ ((∃ e, BoggleBoard iter_moves iter_words cache lines1 text = Raise e) ↔
     (∃ e, BoggleBoard iter_moves iter_words cache lines2 text = Raise e)).
Proof.
  intros Hmoves Hwords Hsame.
  assert (∀ l1 l2,
    (∀ word, word ∈ str_strip <$> l1 ↔ word ∈ str_strip <$> l2) →
    (∀ out_words,
       BoggleBoard iter_moves iter_words cache l1 text = Ret out_words →
       BoggleBoard iter_moves iter_words cache l2 text = Ret out_words)
    ∧ ((∃ e, BoggleBoard iter_moves iter_words cache l1 text = Raise e) →
       (∃ e, BoggleBoard iter_moves iter_words cache l2 text = Raise e))) as Hhalf.
  { intros l1 l2 Hl.
    destruct (_load_board text) as [board| |] eqn:Htext;
      [|by unfold BoggleBoard; rewrite Htext; split; [|intros; eauto]..].
    assert (∀ word, word ∈ unsorted_valid_words l1 board
                    ↔ word ∈ unsorted_valid_words l2 board) as Huvw.
    { intros word. by rewrite !elem_of_unsorted_valid_words, Hl. }
    destruct (load_dictionary_Ret_or_KeyError l1 board) as [[vw1 Hload1]|Herr1].
    - destruct (load_dictionary_same_words l1 l2 board vw1 Hl Hload1)
        as [vw2 Hload2].
      destruct (BoggleBoard_spec iter_moves iter_words Hmoves cache l1 text board
                  Htext vw1 Hload1) as (found1 & -> & Hfound1).
      destruct (BoggleBoard_spec iter_moves iter_words Hmoves cache l2 text board
                  Htext vw2 Hload2) as (found2 & -> & Hfound2).
      assert (found1 = found2) as ->.
      { apply set_eq. intros word. by rewrite Hfound1, Hfound2, Huvw. }
      split; [done|]. by intros [e ?].
    - destruct (load_dictionary_Ret_or_KeyError l2 board) as [[vw2 Hload2]|Herr2].
      + destruct (load_dictionary_same_words l2 l1 board vw2) as [vw1 Hload1];
          [by intros word; rewrite Hl|done|congruence].
      + unfold BoggleBoard. rewrite Htext. res_simpl. rewrite Herr1, Herr2.
        split; [done|]. intros _. by eexists. }
  destruct (Hhalf lines1 lines2 Hsame) as [Hret12 Hraise12].
  destruct (Hhalf lines2 lines1) as [Hret21 Hraise21].
  { intros word. by rewrite Hsame. }
  split; [intros out_words|]; split; auto.
Qed.

Lemma dictionary_order_irrelevant_witness :
  BoggleBoard elements elements ∅ ["quiz"; " via"; "vvv"; "via"; "vvv"]
              "vvvvvviavvvvvvvq" = Ret ["via"; "vvv"].
Proof.
  destruct (dictionary_order_irrelevant elements elements ∅ ["vvv"; "via"; "quiz"]
              ["quiz"; " via"; "vvv"; "via"; "vvv"] "vvvvvviavvvvvvvq")
    as [Hret _].
  - intros moves. reflexivity.
  - intros found. reflexivity.
  - intros word. vm_compute. set_solver.
  - apply Hret. vm_compute. reflexivity.
Defined.
